(** * LibFM: the [Chord] event of [chord.h]

    A shallow embedding of [struct Chord] and of its methods, followed by
    the properties of the duration modifiers, of the octave shifts, of the
    inversion and of the structural equality. *)

From Stdlib Require Import ZArith Lia Bool.
From stdpp Require Import base numbers list.

Local Open Scope Z_scope.

(** ** The C++ [int]

    [int] is a 32-bit two's complement integer, kept here as a [Z] with the
    wrap-around of every arithmetic operation written out.  C++ leaves a
    signed operation that overflows undefined; the wrap-around is what the
    machine instruction computes.  The properties that depend on a sum or a
    product say when it is representable. *)

Module Int.

Definition INT_MIN : Z := -2147483648.
Definition INT_MAX : Z := 2147483647.

Definition in_range (z : Z) : Prop := INT_MIN <= z <= INT_MAX.

Definition in_rangeb (z : Z) : bool := (INT_MIN <=? z) && (z <=? INT_MAX).

Definition wrap (z : Z) : Z := (z + 2 ^ 31) mod 2 ^ 32 - 2 ^ 31.

Definition add (a b : Z) : Z := wrap (a + b).
Definition sub (a b : Z) : Z := wrap (a - b).
Definition mul (a b : Z) : Z := wrap (a * b).

(** [a / b] on [int] rounds toward zero. *)
Definition div (a b : Z) : Z := wrap (Z.quot a b).

(** [d *= 1.5]: the [int] is converted to [double], multiplied by [1.5] and
    converted back.  A 32-bit integer and three halves of it are both
    exact in binary64, so the product is the rational [3 * d / 2]; the
    conversion back drops the fractional part (rounds toward zero).  A
    product that does not fit in an [int] has no defined conversion in
    C++; the model then takes what the x86 conversion instruction
    delivers, [INT_MIN]. *)
Definition of_double_halves (twice : Z) : Z :=
  let t := Z.quot twice 2 in
  if in_rangeb t then t else INT_MIN.

Definition mul_1_5 (d : Z) : Z := of_double_halves (3 * d).

(** Conversion of an [int] argument to a [bool] field. *)
Definition to_bool (z : Z) : bool := negb (z =? 0).

End Int.

Arguments Int.wrap : simpl never.
Arguments Int.add : simpl never.
Arguments Int.sub : simpl never.
Arguments Int.mul : simpl never.
Arguments Int.div : simpl never.
Arguments Int.mul_1_5 : simpl never.

(** ** The data model *)

Record Chord : Type := mkChord {
  pitches : list Z;
  duration : Z;
  triplet : bool;
  dotted : bool;
  double_dotted : bool;
  staccato : bool;
  tenuto : bool;
  accent : bool;
  fermata : bool;
  tied : bool;
  slurred : bool
}.

Definition set_pitches (ps : list Z) (c : Chord) : Chord :=
  mkChord ps (duration c) (triplet c) (dotted c) (double_dotted c)
    (staccato c) (tenuto c) (accent c) (fermata c) (tied c) (slurred c).

Definition set_duration (d : Z) (c : Chord) : Chord :=
  mkChord (pitches c) d (triplet c) (dotted c) (double_dotted c)
    (staccato c) (tenuto c) (accent c) (fermata c) (tied c) (slurred c).

Definition set_triplet (b : bool) (c : Chord) : Chord :=
  mkChord (pitches c) (duration c) b (dotted c) (double_dotted c)
    (staccato c) (tenuto c) (accent c) (fermata c) (tied c) (slurred c).

Definition set_dotted (b : bool) (c : Chord) : Chord :=
  mkChord (pitches c) (duration c) (triplet c) b (double_dotted c)
    (staccato c) (tenuto c) (accent c) (fermata c) (tied c) (slurred c).

Definition set_double_dotted (b : bool) (c : Chord) : Chord :=
  mkChord (pitches c) (duration c) (triplet c) (dotted c) b
    (staccato c) (tenuto c) (accent c) (fermata c) (tied c) (slurred c).

(** The constructor with specified fields.  The flags arrive as [int]s and
    are stored in [bool] fields. *)
Definition Chord_init (ps : list Z) (d : Z)
    (triplet dotted double_dotted staccato tenuto accent fermata tied slurred : Z)
    : Chord :=
  mkChord ps d (Int.to_bool triplet) (Int.to_bool dotted)
    (Int.to_bool double_dotted) (Int.to_bool staccato) (Int.to_bool tenuto)
    (Int.to_bool accent) (Int.to_bool fermata) (Int.to_bool tied)
    (Int.to_bool slurred).

(** ** Methods as state transformers on the receiver

    A method runs on the receiving chord and gives back its return value
    and the chord as the method leaves it. *)

Definition Method (A : Type) : Type := Chord -> A * Chord.

Definition ret {A : Type} (a : A) : Method A := fun c => (a, c).

Definition bind {A B : Type} (m : Method A) (k : A -> Method B) : Method B :=
  fun c => let '(a, c') := m c in k a c'.

Declare Scope method_scope.
Delimit Scope method_scope with method.
Bind Scope method_scope with Method.

Notation "x ← y ; z" := (bind y (fun x => z))
  (at level 20, y at level 100, z at level 200, only parsing) : method_scope.
Notation "x ;; z" := (bind x (fun _ => z))
  (at level 100, z at level 200, only parsing, right associativity)
  : method_scope.

Local Open Scope method_scope.

(** Read a field of the receiver. *)
Definition get {A : Type} (field : Chord -> A) : Method A :=
  fun c => (field c, c).

(** Write to the receiver. *)
Definition assign (upd : Chord -> Chord) : Method unit :=
  fun c => (tt, upd c).

(** [for (int i = from; i < from + n; i++) body(i)]. *)
Fixpoint for_range (body : nat -> Method unit) (from n : nat) : Method unit :=
  match n with
  | O => ret tt
  | S n' => body from;; for_range body (S from) n'
  end.

(** The value a method returns, and the receiver it leaves. *)
Definition result {A : Type} (m : Method A) (c : Chord) : A := fst (m c).
Definition after {A : Type} (m : Method A) (c : Chord) : Chord := snd (m c).

(** ** The methods *)

Section Methods.

(** The duration table of [constants.h], which the methods take as given. *)
Variables one_twenty_eighth_note sixty_fourth_note : Z.
Variable dotted_sixty_fourth_note : Z.
Variable quarter_note : Z.
Variable c_major_chord : list Z.

Definition Chord_default : Chord :=
  mkChord c_major_chord quarter_note
    false false false false false false false false false.

Definition dot : Method bool :=
  d ← get dotted;
  if negb d then
    dur ← get duration;
    if dur =? one_twenty_eighth_note then ret false
    else
      assign (set_dotted true);;
      assign (fun c => set_duration (Int.mul_1_5 (duration c)) c);;
      ret true
  else
    dd ← get double_dotted;
    if d && negb dd then
      dur ← get duration;
      if dur =? dotted_sixty_fourth_note then ret false
      else
        assign (set_double_dotted true);;
        assign (fun c => set_duration (Int.div (duration c) 6) c);;
        assign (fun c => set_duration (Int.mul (duration c) 7) c);;
        ret true
    else ret false.

Definition double_dot : Method bool :=
  d ← get dotted;
  if d then ret false
  else
    dur ← get duration;
    if (dur =? one_twenty_eighth_note) || (dur =? sixty_fourth_note)
    then ret false
    else
      assign (set_dotted true);;
      assign (set_double_dotted true);;
      assign (fun c => set_duration (Int.div (duration c) 4) c);;
      assign (fun c => set_duration (Int.mul (duration c) 7) c);;
      ret true.

End Methods.

Definition put_in_triplet : Method bool :=
  t ← get triplet;
  if t then ret false
  else
    assign (set_triplet true);;
    assign (fun c => set_duration (Int.div (duration c) 3) c);;
    assign (fun c => set_duration (Int.mul (duration c) 2) c);;
    ret true.

(** [pitches[i] = f(pitches[i])], for an index inside the vector. *)
Definition update_pitch (f : Z -> Z) (i : nat) : Method unit :=
  assign (fun c => set_pitches (<[i := f (pitches c !!! i)]> (pitches c)) c).

Definition add_octave : Method bool :=
  ps ← get pitches;
  if (length ps =? 0)%nat
     || (126 <? Int.add (ps !!! (length ps - 1)%nat) 12)
  then ret false
  else
    for_range (update_pitch (fun p => Int.add p 12)) 0 (length ps);;
    ret true.

Definition drop_octave : Method bool :=
  ps ← get pitches;
  if (length ps =? 0)%nat || (Int.sub (ps !!! 0%nat) 12 <? 0)
  then ret false
  else
    for_range (update_pitch (fun p => Int.sub p 12)) 0 (length ps);;
    ret true.

(** [push_back] of the raised bottom note, then [erase] of the first
    element. *)
Definition invert : Method bool :=
  ps ← get pitches;
  if (length ps <? 2)%nat || (126 <? Int.add (ps !!! 0%nat) 12)
  then ret false
  else
    assign (fun c => set_pitches (pitches c ++ [Int.add (pitches c !!! 0%nat) 12]) c);;
    assign (fun c => set_pitches (tail (pitches c)) c);;
    ret true.

(** The loop of [equals] over the positions [from .. from + n - 1]: [false]
    as soon as the two vectors differ at a position (the method returns
    there), [true] when the loop runs to its end. *)
Fixpoint same_pitches_from (ps qs : list Z) (from n : nat) : bool :=
  match n with
  | O => true
  | S n' =>
      if negb (ps !!! from =? qs !!! from) then false
      else same_pitches_from ps qs (S from) n'
  end.

(** [this->equals(chord)]: the argument is the chord pointed to, which the
    method only reads. *)
Definition equals (chord : Chord) : Method bool :=
  ps ← get pitches;
  if negb (length ps =? length (pitches chord))%nat then ret false
  else if negb (same_pitches_from ps (pitches chord) 0 (length ps)) then ret false
  else
    x ← get duration;
    if negb (x =? duration chord) then ret false else
    x ← get triplet;
    if negb (eqb x (triplet chord)) then ret false else
    x ← get dotted;
    if negb (eqb x (dotted chord)) then ret false else
    x ← get double_dotted;
    if negb (eqb x (double_dotted chord)) then ret false else
    x ← get staccato;
    if negb (eqb x (staccato chord)) then ret false else
    x ← get tenuto;
    if negb (eqb x (tenuto chord)) then ret false else
    x ← get accent;
    if negb (eqb x (accent chord)) then ret false else
    x ← get fermata;
    if negb (eqb x (fermata chord)) then ret false else
    x ← get tied;
    if negb (eqb x (tied chord)) then ret false else
    x ← get slurred;
    if negb (eqb x (slurred chord)) then ret false else
    ret true.

(** The fallible operations that change a chord. *)
Inductive Operation : Type :=
  | Dot | DoubleDot | PutInTriplet | AddOctave | DropOctave | Invert.

Section Operations.

Variables one_twenty_eighth_note sixty_fourth_note : Z.
Variable dotted_sixty_fourth_note : Z.

Definition run (op : Operation) : Method bool :=
  match op with
  | Dot => dot one_twenty_eighth_note dotted_sixty_fourth_note
  | DoubleDot => double_dot one_twenty_eighth_note sixty_fourth_note
  | PutInTriplet => put_in_triplet
  | AddOctave => add_octave
  | DropOctave => drop_octave
  | Invert => invert
  end.

End Operations.

(** ** Vocabulary of the properties *)

(** The valid range of a pitch. *)
Definition pitch_ok (p : Z) : Prop := 0 <= p <= 126.

Definition pitches_ok (c : Chord) : Prop := Forall pitch_ok (pitches c).

(** The numerically highest and lowest pitch of a sequence. *)
Definition highest (ps : list Z) : option Z :=
  match ps with
  | [] => None
  | p :: ps' => Some (foldr Z.max p ps')
  end.

Definition lowest (ps : list Z) : option Z :=
  match ps with
  | [] => None
  | p :: ps' => Some (foldr Z.min p ps')
  end.

(** The octave shifts as the range rule words them: refuse on an empty
    pitch set or when the extreme pitch would leave [0, 126], and shift
    every pitch otherwise. *)
Definition add_octave_by_highest : Method bool :=
  fun c =>
    match highest (pitches c) with
    | None => (false, c)
    | Some h =>
        if 126 <? h + 12 then (false, c)
        else (true, set_pitches (map (fun p => p + 12) (pitches c)) c)
    end.

Definition drop_octave_by_lowest : Method bool :=
  fun c =>
    match lowest (pitches c) with
    | None => (false, c)
    | Some l =>
        if l - 12 <? 0 then (false, c)
        else (true, set_pitches (map (fun p => p - 12) (pitches c)) c)
    end.

(** A chord with every flag clear, as [Chord(pitches, duration)] builds
    it. *)
Definition plain_chord (ps : list Z) (d : Z) : Chord :=
  mkChord ps d false false false false false false false false false.

(** The C major triad on middle C, for 32 ticks. *)
Definition c_major_triad : Chord := plain_chord [60; 64; 67] 32.

(** The operations that work on the pitches; the others work on the
    duration. *)
Definition on_pitches (op : Operation) : bool :=
  match op with
  | AddOctave | DropOctave | Invert => true
  | Dot | DoubleDot | PutInTriplet => false
  end.

(** [n] calls of a method in a row on the same chord, whatever they
    return. *)
Definition repeatedly (m : Method bool) (n : nat) (c : Chord) : Chord :=
  Nat.iter n (after m) c.


(** Pitches listed from the bottom note up. *)
Definition ascending (ps : list Z) : Prop :=
  forall (i j : nat) (x y : Z),
    (i <= j)%nat -> ps !! i = Some x -> ps !! j = Some y -> x <= y.

(** The position of a pitch within its octave. *)
Definition pitch_class (p : Z) : Z := p mod 12.

#[global] Instance Chord_eq_dec : EqDecision Chord.
Proof. solve_decision. Defined.

(** ** Arithmetic of [int] *)

Lemma wrap_in_range z : Int.in_range z -> Int.wrap z = z.
Proof.
  unfold Int.in_range, Int.INT_MIN, Int.INT_MAX, Int.wrap. intros Hz.
  rewrite Z.mod_small; lia.
Qed.

Lemma wrap_range z : Int.in_range (Int.wrap z).
Proof.
  unfold Int.in_range, Int.INT_MIN, Int.INT_MAX, Int.wrap.
  pose proof (Z.mod_pos_bound (z + 2 ^ 31) (2 ^ 32)). lia.
Qed.

Lemma in_rangeb_spec z : Int.in_rangeb z = true <-> Int.in_range z.
Proof. unfold Int.in_rangeb, Int.in_range. rewrite andb_true_iff. lia. Qed.

Lemma mul_1_5_in_range d :
  Int.in_range (Z.quot (3 * d) 2) -> Int.mul_1_5 d = Z.quot (3 * d) 2.
Proof.
  intros H. unfold Int.mul_1_5, Int.of_double_halves.
  apply in_rangeb_spec in H. now rewrite H.
Qed.

(** Halving and then taking a sixth is taking a twelfth, with rounding
    toward zero at each step. *)
Lemma quot_3_halves_sixth d : Z.quot (Z.quot (3 * d) 2) 6 = Z.quot d 4.
Proof.
  rewrite Z.quot_quot by lia. change (2 * 6) with (3 * 4).
  rewrite <- Z.quot_quot by lia.
  rewrite (Z.mul_comm 3 d), Z.quot_mul by lia. reflexivity.
Qed.

(** ** The methods in closed form *)

Ltac run_method :=
  unfold result, after, bind, ret, get, assign; cbn.

Lemma set_pitches_same c : set_pitches (pitches c) c = c.
Proof. now destruct c. Qed.

Section ClosedForms.

Variables one_twenty_eighth_note sixty_fourth_note : Z.
Variable dotted_sixty_fourth_note : Z.

Lemma dot_eq c :
  dot one_twenty_eighth_note dotted_sixty_fourth_note c =
    if negb (dotted c) then
      if duration c =? one_twenty_eighth_note then (false, c)
      else (true, set_duration (Int.mul_1_5 (duration c)) (set_dotted true c))
    else if negb (double_dotted c) then
      if duration c =? dotted_sixty_fourth_note then (false, c)
      else (true, set_duration (Int.mul (Int.div (duration c) 6) 7)
                    (set_double_dotted true c))
    else (false, c).
Proof.
  destruct c as [ps d t [|] [|] s te a f ti sl];
    unfold dot; run_method; try reflexivity.
  - destruct (d =? dotted_sixty_fourth_note); reflexivity.
  - destruct (d =? one_twenty_eighth_note); reflexivity.
  - destruct (d =? one_twenty_eighth_note); reflexivity.
Qed.

Lemma double_dot_eq c :
  double_dot one_twenty_eighth_note sixty_fourth_note c =
    if dotted c then (false, c)
    else if (duration c =? one_twenty_eighth_note)
            || (duration c =? sixty_fourth_note) then (false, c)
    else (true, set_duration (Int.mul (Int.div (duration c) 4) 7)
                  (set_double_dotted true (set_dotted true c))).
Proof.
  destruct c as [ps d t [|] dd s te a f ti sl];
    unfold double_dot; run_method; [reflexivity|].
  destruct (_ || _); reflexivity.
Qed.

End ClosedForms.

Lemma put_in_triplet_eq c :
  put_in_triplet c =
    if triplet c then (false, c)
    else (true, set_duration (Int.mul (Int.div (duration c) 3) 2)
                  (set_triplet true c)).
Proof.
  destruct c as [ps d [|] dt dd s te a f ti sl];
    unfold put_in_triplet; run_method; reflexivity.
Qed.

(** The loop of the octave shifts has rewritten the positions below [from]
    and still has the others to do. *)
Lemma for_range_update_pitch (f : Z -> Z) (n : nat) :
  forall (from : nat) (c : Chord),
    length (pitches c) = (from + n)%nat ->
    for_range (update_pitch f) from n c =
      (tt, set_pitches (take from (pitches c) ++ map f (drop from (pitches c))) c).
Proof.
  induction n as [|n IH]; intros from c Hlen.
  - cbn. unfold ret. rewrite drop_ge, take_ge by lia.
    cbn. now rewrite app_nil_r, set_pitches_same.
  - cbn [for_range]. unfold bind, update_pitch at 1, assign.
    rewrite IH by (cbn; rewrite length_insert; lia).
    destruct c as [ps d t dt dd s te a fe ti sl]; cbn in *.
    unfold set_pitches; cbn. do 2 f_equal.
    assert (Hfrom : ps !! from = Some (ps !!! from))
      by (apply list_lookup_lookup_total_lt; lia).
    rewrite (drop_S ps _ from Hfrom), drop_insert_lt by lia.
    rewrite (take_S_r _ from (f (ps !!! from)))
      by (apply list_lookup_insert_eq; lia).
    rewrite take_insert_ge by lia.
    cbn. now rewrite <- app_assoc.
Qed.

Lemma for_range_whole (f : Z -> Z) (c : Chord) :
  for_range (update_pitch f) 0 (length (pitches c)) c =
    (tt, set_pitches (map f (pitches c)) c).
Proof. now rewrite for_range_update_pitch. Qed.

Lemma add_octave_eq c :
  add_octave c =
    if (length (pitches c) =? 0)%nat
       || (126 <? Int.add (pitches c !!! (length (pitches c) - 1)%nat) 12)
    then (false, c)
    else (true, set_pitches (map (fun p => Int.add p 12) (pitches c)) c).
Proof.
  unfold add_octave, bind, get, ret.
  destruct (_ || _); [reflexivity|].
  now rewrite for_range_whole.
Qed.

Lemma drop_octave_eq c :
  drop_octave c =
    if (length (pitches c) =? 0)%nat || (Int.sub (pitches c !!! 0%nat) 12 <? 0)
    then (false, c)
    else (true, set_pitches (map (fun p => Int.sub p 12) (pitches c)) c).
Proof.
  unfold drop_octave, bind, get, ret.
  destruct (_ || _); [reflexivity|].
  now rewrite for_range_whole.
Qed.

Lemma invert_eq c :
  invert c =
    if (length (pitches c) <? 2)%nat || (126 <? Int.add (pitches c !!! 0%nat) 12)
    then (false, c)
    else (true, set_pitches
                  (tail (pitches c) ++ [Int.add (pitches c !!! 0%nat) 12]) c).
Proof.
  unfold invert, bind, get, ret, assign.
  destruct (length (pitches c) <? 2)%nat eqn:Hlen; [reflexivity|].
  apply Nat.ltb_ge in Hlen. cbn [orb].
  destruct (126 <? _); [reflexivity|].
  destruct c as [[|p ps] d t dt dd s te a fe ti sl]; cbn in *; [lia|].
  reflexivity.
Qed.

(** The loop of [equals] compares the two vectors position by position. *)
Lemma same_pitches_from_spec (ps qs : list Z) (n : nat) :
  forall from : nat,
    same_pitches_from ps qs from n = true <->
    forall i : nat, (from <= i < from + n)%nat -> ps !!! i = qs !!! i.
Proof.
  induction n as [|n IH]; intros from; cbn.
  - split; [intros _ i Hi; lia | reflexivity].
  - destruct (ps !!! from =? qs !!! from) eqn:Heq; cbn.
    + apply Z.eqb_eq in Heq. rewrite IH. split.
      * intros H i Hi. destruct (decide (i = from)) as [->|]; [exact Heq|].
        apply H. lia.
      * intros H i Hi. apply H. lia.
    + apply Z.eqb_neq in Heq. split; [discriminate|].
      intros H. exfalso. apply Heq, H. lia.
Qed.

Lemma same_pitches_whole (ps qs : list Z) :
  length ps = length qs ->
  same_pitches_from ps qs 0 (length ps) = true <-> ps = qs.
Proof.
  intros Hlen. rewrite same_pitches_from_spec. split.
  - intros H. apply list_eq_same_length with (length ps); [congruence|reflexivity|].
    intros i x y Hi Hx Hy.
    apply list_lookup_total_correct in Hx, Hy. rewrite <- Hx, <- Hy.
    apply H. lia.
  - now intros ->.
Qed.

(** One scalar comparison of [equals]: either the two flags agree and the
    method goes on, or it returns [false] and the chords differ. *)
Ltac compare_flag :=
  match goal with
  | |- context [eqb ?x ?y] =>
      let H := fresh "H" in
      destruct (eqb x y) eqn:H; cbn;
      [ apply eqb_prop in H; subst y
      | apply eqb_false_iff in H;
        rewrite bool_decide_eq_false_2; [reflexivity|congruence] ]
  end.

Lemma equals_eq (a b : Chord) :
  equals b a = (bool_decide (a = b), a).
Proof.
  destruct a as [ps d t dt dd s te ac fe ti sl],
           b as [ps' d' t' dt' dd' s' te' ac' fe' ti' sl'].
  unfold equals, bind, get, ret; cbn.
  destruct (length ps =? length ps')%nat eqn:Hlen; cbn.
  2:{ apply Nat.eqb_neq in Hlen. rewrite bool_decide_eq_false_2; [reflexivity|].
      intros [= -> _]. now apply Hlen. }
  apply Nat.eqb_eq in Hlen.
  destruct (same_pitches_from ps ps' 0 (length ps)) eqn:Hps; cbn.
  2:{ rewrite bool_decide_eq_false_2; [reflexivity|].
      intros [= Heq _]. apply (same_pitches_whole _ _ Hlen) in Heq. congruence. }
  apply (same_pitches_whole _ _ Hlen) in Hps. subst ps'.
  destruct (d =? d') eqn:Hd; cbn.
  2:{ apply Z.eqb_neq in Hd. rewrite bool_decide_eq_false_2; [reflexivity|congruence]. }
  apply Z.eqb_eq in Hd. subst d'.
  repeat compare_flag.
  rewrite bool_decide_eq_true_2; reflexivity.
Qed.

(** ** Dotting *)

(** The first branch does not look at [double_dotted]: a chord built with
    [double_dotted] set and [dotted] clear is dotted like an undotted
    one. *)
Lemma dot_when_not_dotted
    (one_twenty_eighth_note dotted_sixty_fourth_note : Z) (c : Chord) :
  dotted c = false ->
  duration c <> one_twenty_eighth_note ->
  dot one_twenty_eighth_note dotted_sixty_fourth_note c =
    (true, set_duration (Int.mul_1_5 (duration c)) (set_dotted true c)).
Proof.
  intros Hd Hne. rewrite dot_eq, Hd. cbn.
  apply Z.eqb_neq in Hne. now rewrite Hne.
Qed.

(** ** Failure *)

(** C4.  Whichever of [dot], [double_dot], [put_in_triplet], [add_octave],
    [drop_octave] and [invert] returns false leaves every field of the
    chord as it was. *)
Theorem failed_operation_changes_nothing
    (one_twenty_eighth_note sixty_fourth_note dotted_sixty_fourth_note : Z)
    (op : Operation) (c : Chord) :
  let m := run one_twenty_eighth_note sixty_fourth_note
             dotted_sixty_fourth_note op in
  result m c = false -> after m c = c.
Proof.
  cbv zeta. unfold result, after. destruct op; cbn [run].
  - rewrite dot_eq.
    destruct (negb (dotted c)), (negb (double_dotted c)),
      (duration c =? one_twenty_eighth_note),
      (duration c =? dotted_sixty_fourth_note); cbn; congruence.
  - rewrite double_dot_eq.
    destruct (dotted c); [reflexivity|].
    destruct (_ || _); cbn; congruence.
  - rewrite put_in_triplet_eq. destruct (triplet c); cbn; congruence.
  - rewrite add_octave_eq. destruct (_ || _); cbn; congruence.
  - rewrite drop_octave_eq. destruct (_ || _); cbn; congruence.
  - rewrite invert_eq. destruct (_ || _); cbn; congruence.
Qed.

(** ** Construction *)

(** C9.  The constructor with specified fields keeps the pitches and the
    duration it is given and the truth value of every flag argument,
    whatever they are; so there are chords with a pitch outside [0, 126],
    with a duration that is not positive, and with [double_dotted] set
    while [dotted] is clear. *)
Theorem Chord_init_validates_nothing :
  (forall (ps : list Z) (d t dt dd s te a f ti sl : Z),
     let c := Chord_init ps d t dt dd s te a f ti sl in
     pitches c = ps /\ duration c = d /\
     (triplet c = true <-> t <> 0) /\
     (dotted c = true <-> dt <> 0) /\
     (double_dotted c = true <-> dd <> 0) /\
     (staccato c = true <-> s <> 0) /\
     (tenuto c = true <-> te <> 0) /\
     (accent c = true <-> a <> 0) /\
     (fermata c = true <-> f <> 0) /\
     (tied c = true <-> ti <> 0) /\
     (slurred c = true <-> sl <> 0))
  /\ ~ pitches_ok (Chord_init [-1; 127] 4 0 0 0 0 0 0 0 0 0)
  /\ duration (Chord_init [60] 0 0 0 0 0 0 0 0 0 0) <= 0
  /\ duration (Chord_init [60] (-4) 0 0 0 0 0 0 0 0 0) <= 0
  /\ (let c := Chord_init [60] 4 0 0 1 0 0 0 0 0 0 in
      double_dotted c = true /\ dotted c = false).
Proof.
  assert (Hb : forall z, Int.to_bool z = true <-> z <> 0).
  { intros z. unfold Int.to_bool. rewrite negb_true_iff. apply Z.eqb_neq. }
  split; [|split; [|split; [|split]]].
  - intros. subst c. cbn. repeat split; try apply Hb; intros H; now apply Hb.
  - unfold pitches_ok, pitch_ok. cbn. intros H.
    apply Forall_cons_1 in H as [H _]. lia.
  - cbn. lia.
  - cbn. lia.
  - cbn. split; reflexivity.
Qed.

(** ** Structural equality *)

(** C8.  [a.equals(&b)] is true exactly when the two pitch vectors have the
    same length and the same value at every position and the duration and
    the nine flags agree; it leaves the receiver as it was; and it is
    reflexive, symmetric and transitive. *)
Theorem equals_structural :
  (forall a b : Chord,
     result (equals b) a = true <->
     length (pitches a) = length (pitches b) /\
     (forall i : nat, (i < length (pitches a))%nat ->
        pitches a !!! i = pitches b !!! i) /\
     duration a = duration b /\ triplet a = triplet b /\
     dotted a = dotted b /\ double_dotted a = double_dotted b /\
     staccato a = staccato b /\ tenuto a = tenuto b /\
     accent a = accent b /\ fermata a = fermata b /\
     tied a = tied b /\ slurred a = slurred b)
  /\ (forall a b : Chord, after (equals b) a = a)
  /\ (forall a : Chord, result (equals a) a = true)
  /\ (forall a b : Chord,
        result (equals b) a = true -> result (equals a) b = true)
  /\ (forall a b c : Chord,
        result (equals b) a = true -> result (equals c) b = true ->
        result (equals c) a = true).
Proof.
  assert (Heq : forall a b, result (equals b) a = true <-> a = b).
  { intros a b. unfold result. rewrite equals_eq. cbn.
    apply bool_decide_eq_true. }
  split; [|split; [|split; [|split]]].
  - intros a b. rewrite Heq. split.
    + intros ->. repeat split; reflexivity.
    + intros (Hlen & Hps & Hrest).
      assert (pitches a = pitches b) as Hpitches.
      { apply list_eq_same_length with (length (pitches a));
          [congruence|reflexivity|].
        intros i x y Hi Hx Hy.
        apply list_lookup_total_correct in Hx, Hy. rewrite <- Hx, <- Hy.
        now apply Hps. }
      destruct a, b; cbn in *. intuition congruence.
  - intros a b. unfold after. now rewrite equals_eq.
  - intros a. now apply Heq.
  - intros a b H. apply Heq. apply Heq in H. congruence.
  - intros a b c H1 H2. apply Heq. apply Heq in H1, H2. congruence.
Qed.

(** ** Inversion *)

(** C6.  [invert] refuses every chord of fewer than two pitches.  On a
    chord whose pitch at index 0 plus 12 is representable as an [int] (where
    it is not, the sum is undefined in C++), [invert] returns false exactly
    when the chord has fewer than two pitches or the pitch at index 0 plus
    12 exceeds 126; otherwise it removes the pitch at index 0 and appends
    that pitch plus 12, the other pitches keeping their order.  On
    [60, 64, 67] it gives [64, 67, 72]. *)
Theorem invert_moves_bottom_note_up :
  (forall c : Chord,
     (length (pitches c) < 2)%nat -> invert c = (false, c))
  /\ (forall c : Chord,
        Int.in_range (pitches c !!! 0%nat + 12) ->
        result invert c = false <->
        (length (pitches c) < 2)%nat \/ 126 < pitches c !!! 0%nat + 12)
  /\ (forall c : Chord,
        Int.in_range (pitches c !!! 0%nat + 12) ->
        result invert c = true ->
        after invert c =
          set_pitches (tail (pitches c) ++ [pitches c !!! 0%nat + 12]) c)
  /\ (forall (p : Z) (ps : list Z) (c : Chord),
        pitches c = p :: ps -> Int.in_range (p + 12) ->
        result invert c = true ->
        pitches (after invert c) = ps ++ [p + 12])
  /\ (forall (d : Z) (t dt dd s te a f ti sl : bool),
        invert (mkChord [60; 64; 67] d t dt dd s te a f ti sl) =
          (true, mkChord [64; 67; 72] d t dt dd s te a f ti sl)).
Proof.
  assert (Hfalse : forall c : Chord,
            result invert c = false <->
            (length (pitches c) < 2)%nat
            \/ 126 < Int.add (pitches c !!! 0%nat) 12).
  { intros c. unfold result. rewrite invert_eq.
    destruct (length (pitches c) <? 2)%nat eqn:Hlen;
      destruct (126 <? Int.add (pitches c !!! 0%nat) 12) eqn:Hp; cbn;
      first [apply Nat.ltb_lt in Hlen | apply Nat.ltb_ge in Hlen];
      first [apply Z.ltb_lt in Hp | apply Z.ltb_ge in Hp];
      split; intros H; try discriminate; try reflexivity; auto; lia. }
  split; [|split; [|split; [|split]]].
  - intros c Hlen. rewrite invert_eq.
    apply Nat.ltb_lt in Hlen. now rewrite Hlen.
  - intros c Hr. rewrite Hfalse. unfold Int.add.
    now rewrite wrap_in_range.
  - intros c Hr. unfold result, after. rewrite invert_eq.
    unfold Int.add. rewrite wrap_in_range by exact Hr.
    destruct (_ || _); cbn; [discriminate|reflexivity].
  - intros p ps c Hps Hr. unfold result, after. rewrite invert_eq.
    destruct (_ || _); cbn; [discriminate|]. intros _.
    rewrite Hps. cbn. unfold Int.add. now rewrite wrap_in_range.
  - intros. reflexivity.
Qed.

(** ** Triplets *)

(** Rounding toward zero: the quotient by a positive constant, bracketed. *)
Lemma quot_bracket (d k : Z) :
  0 < k ->
  (0 <= d -> k * Z.quot d k <= d < k * Z.quot d k + k) /\
  (d <= 0 -> k * Z.quot d k - k < d <= k * Z.quot d k).
Proof.
  intros Hk.
  assert (Hpos : forall e, 0 <= e -> k * Z.quot e k <= e < k * Z.quot e k + k).
  { intros e He. pose proof (Z.quot_rem' e k).
    pose proof (Z.rem_bound_pos e k He Hk). lia. }
  split; intros Hd; [now apply Hpos|].
  specialize (Hpos (- d) ltac:(lia)).
  rewrite Z.quot_opp_l in Hpos by lia. lia.
Qed.

Lemma triplet_duration_exact (d : Z) :
  Int.in_range d -> Int.mul (Int.div d 3) 2 = Z.quot d 3 * 2.
Proof.
  intros Hd. unfold Int.in_range, Int.INT_MIN, Int.INT_MAX in Hd.
  destruct (quot_bracket d 3 ltac:(lia)) as [Hpos Hneg].
  unfold Int.mul, Int.div.
  rewrite (wrap_in_range (Z.quot d 3)), wrap_in_range; [reflexivity| |];
    unfold Int.in_range, Int.INT_MIN, Int.INT_MAX; lia.
Qed.

(** C7, as the code has it.  On a chord whose [triplet] flag is clear the
    first [put_in_triplet] returns true and the second returns false and
    changes nothing; the duration is then the original divided by 3,
    rounded toward zero, and multiplied by 2, and the flag is set.  That is
    two thirds of the original exactly when 3 divides it. *)
Theorem put_in_triplet_twice (c : Chord) :
  triplet c = false ->
  Int.in_range (duration c) ->
  let c1 := after put_in_triplet c in
  let c2 := after put_in_triplet c1 in
  result put_in_triplet c = true /\
  result put_in_triplet c1 = false /\
  c2 = c1 /\
  triplet c2 = true /\
  duration c2 = Z.quot (duration c) 3 * 2 /\
  (3 * duration c2 = 2 * duration c <-> (3 | duration c)).
Proof.
  intros Ht Hd. cbv zeta. unfold result, after.
  rewrite !put_in_triplet_eq, Ht. cbn.
  rewrite triplet_duration_exact by exact Hd.
  repeat (split; [reflexivity|]).
  destruct (quot_bracket (duration c) 3 ltac:(lia)) as [Hpos Hneg].
  split.
  - intros H. exists (Z.quot (duration c) 3). lia.
  - intros [k Hk]. rewrite Hk, Z.quot_mul by lia. lia.
Qed.

(** ** Two dots *)

Section TwoDots.

Variables one_twenty_eighth_note sixty_fourth_note : Z.
Variable dotted_sixty_fourth_note : Z.

Local Abbreviation dot :=
  (dot one_twenty_eighth_note dotted_sixty_fourth_note).
Local Abbreviation double_dot :=
  (double_dot one_twenty_eighth_note sixty_fourth_note).

(** C10, as the code has it.  On a chord with both dot flags clear and a
    duration [d] other than the one-hundred-twenty-eighth note, whose
    three halves fit an [int], [dot] sets the duration to [3 * d / 2]
    rounded toward zero: the floor when [d] is not negative, the ceiling
    when it is not positive.  The result is the exact three halves of [d]
    when [d] is even and never when [d] is odd. *)
Theorem first_dot_rounds_toward_zero (c : Chord) :
  dotted c = false -> double_dotted c = false ->
  duration c <> one_twenty_eighth_note ->
  Int.in_range (Z.quot (3 * duration c) 2) ->
  let d := duration c in
  let d' := duration (after dot c) in
  result dot c = true /\
  d' = Z.quot (3 * d) 2 /\
  (0 <= d -> d' = (3 * d) / 2) /\
  (d <= 0 -> d' = - ((- (3 * d)) / 2)) /\
  (Z.odd d = true -> 2 * d' <> 3 * d) /\
  (Z.even d = true -> 2 * d' = 3 * d).
Proof.
  intros Hdot _ Hne Hfit. cbv zeta. unfold result, after.
  rewrite dot_when_not_dotted by assumption. cbn.
  rewrite mul_1_5_in_range by exact Hfit.
  split; [reflexivity|]. split; [reflexivity|].
  destruct (quot_bracket (3 * duration c) 2 ltac:(lia)) as [Hpos Hneg].
  split; [|split; [|split]].
  - intros Hd. now rewrite Z.quot_div_nonneg by lia.
  - intros Hd. replace (3 * duration c) with (- (- (3 * duration c))) at 1 by lia.
    rewrite Z.quot_opp_l by lia. now rewrite Z.quot_div_nonneg by lia.
  - intros Hodd Heq. rewrite <- Z.negb_even in Hodd.
    apply negb_true_iff in Hodd.
    assert (Z.even (3 * duration c) = true) as He
      by (rewrite <- Heq, Z.even_mul; reflexivity).
    rewrite Z.even_mul, Hodd in He. discriminate.
  - intros Heven. apply Z.even_spec in Heven as [k Hk].
    replace (3 * duration c) with (3 * k * 2) by lia.
    rewrite Z.quot_mul by lia. lia.
Qed.

(** Two [dot]s in a row and one [double_dot], run side by side. *)
Lemma two_dots_run (c : Chord) :
  dotted c = false -> double_dotted c = false ->
  duration c <> one_twenty_eighth_note ->
  duration c <> sixty_fourth_note ->
  Int.in_range (Z.quot (3 * duration c) 2) ->
  Z.quot (3 * duration c) 2 <> dotted_sixty_fourth_note ->
  let c2 := set_duration (Int.mul (Int.div (duration c) 4) 7)
              (set_double_dotted true (set_dotted true c)) in
  result dot c = true /\
  dot (after dot c) = (true, c2) /\
  double_dot c = (true, c2).
Proof.
  intros Hdot Hddot Hne128 Hne64 Hfit Hned64. cbv zeta.
  unfold result, after.
  rewrite (dot_when_not_dotted _ _ c) by assumption. cbn [fst snd].
  rewrite mul_1_5_in_range by exact Hfit.
  rewrite dot_eq, double_dot_eq. cbn. rewrite Hdot, Hddot. cbn.
  apply Z.eqb_neq in Hne128, Hne64, Hned64.
  rewrite Hne128, Hne64, Hned64. cbn.
  assert (Hsame : Int.div (Z.quot (3 * duration c) 2) 6 = Int.div (duration c) 4)
    by (unfold Int.div; now rewrite quot_3_halves_sixth).
  rewrite Hsame. repeat split; reflexivity.
Qed.

(** C5, as the code has it.  On a chord with both dot flags clear, a
    duration [d] that is neither the one-hundred-twenty-eighth nor the
    sixty-fourth note, and whose three halves fit an [int] and are not
    the dotted sixty-fourth note, two [dot]s in a row both succeed and
    leave the chord exactly as one [double_dot] leaves it: both flags set
    and the duration [d] divided by 4, rounded toward zero, and multiplied
    by 7.  When 4 divides [d] and seven quarters of [d] fit an [int],
    that is seven quarters of the original. *)
Theorem two_dots_are_double_dot (c : Chord) :
  dotted c = false -> double_dotted c = false ->
  duration c <> one_twenty_eighth_note ->
  duration c <> sixty_fourth_note ->
  Int.in_range (Z.quot (3 * duration c) 2) ->
  Z.quot (3 * duration c) 2 <> dotted_sixty_fourth_note ->
  let d := duration c in
  let c2 := after dot (after dot c) in
  result dot c = true /\
  result dot (after dot c) = true /\
  result double_dot c = true /\
  c2 = after double_dot c /\
  dotted c2 = true /\ double_dotted c2 = true /\
  duration c2 = Int.mul (Int.div d 4) 7 /\
  ((4 | d) -> Int.in_range (7 * Z.quot d 4) -> 4 * duration c2 = 7 * d).
Proof.
  intros Hdot Hddot Hne128 Hne64 Hfit Hned64. cbv zeta.
  destruct (two_dots_run c Hdot Hddot Hne128 Hne64 Hfit Hned64)
    as (Hr1 & Hrun2 & Hrun).
  unfold result, after in *. rewrite Hrun2, Hrun. cbn [fst snd].
  split; [exact Hr1|]. do 6 (split; [reflexivity|]).
  intros [k Hk] H7. cbn [duration set_duration].
  assert (Hq : Z.quot (duration c) 4 = k) by (rewrite Hk; apply Z.quot_mul; lia).
  rewrite Hq in H7.
  assert (Hk4 : Int.in_range k)
    by (unfold Int.in_range, Int.INT_MIN, Int.INT_MAX in *; lia).
  unfold Int.mul, Int.div. rewrite Hq, (wrap_in_range k) by exact Hk4.
  rewrite (Z.mul_comm k 7), wrap_in_range by exact H7. lia.
Qed.

End TwoDots.

(** ** Octave shifts and the pitch range *)

Lemma foldr_max_bounds (p : Z) (ps : list Z) :
  p <= foldr Z.max p ps /\ Forall (fun q => q <= foldr Z.max p ps) ps.
Proof.
  induction ps as [|q ps [IHp IHps]]; cbn.
  - split; [lia|constructor].
  - split; [lia|]. constructor; [lia|].
    eapply Forall_impl; [exact IHps|]. cbn. intros; lia.
Qed.

Lemma foldr_min_bounds (p : Z) (ps : list Z) :
  foldr Z.min p ps <= p /\ Forall (fun q => foldr Z.min p ps <= q) ps.
Proof.
  induction ps as [|q ps [IHp IHps]]; cbn.
  - split; [lia|constructor].
  - split; [lia|]. constructor; [lia|].
    eapply Forall_impl; [exact IHps|]. cbn. intros; lia.
Qed.

Lemma highest_bounds (ps : list Z) (h : Z) :
  highest ps = Some h -> Forall (fun q => q <= h) ps.
Proof.
  destruct ps as [|p ps]; [discriminate|]. intros [= <-].
  destruct (foldr_max_bounds p ps). now constructor.
Qed.

Lemma lowest_bounds (ps : list Z) (l : Z) :
  lowest ps = Some l -> Forall (fun q => l <= q) ps.
Proof.
  destruct ps as [|p ps]; [discriminate|]. intros [= <-].
  destruct (foldr_min_bounds p ps). now constructor.
Qed.

Lemma add_12_exact (p : Z) : pitch_ok p -> Int.add p 12 = p + 12.
Proof.
  unfold pitch_ok. intros Hp. apply wrap_in_range.
  unfold Int.in_range, Int.INT_MIN, Int.INT_MAX. lia.
Qed.

Lemma sub_12_exact (p : Z) : pitch_ok p -> Int.sub p 12 = p - 12.
Proof.
  unfold pitch_ok. intros Hp. apply wrap_in_range.
  unfold Int.in_range, Int.INT_MIN, Int.INT_MAX. lia.
Qed.

(** On a chord in range whose last pitch is its highest (a chord kept in
    ascending order is one), [add_octave] is the shift guarded by the
    highest pitch, and its result is in range. *)
Lemma add_octave_when_last_is_highest (c : Chord) :
  pitches_ok c ->
  highest (pitches c) = last (pitches c) ->
  add_octave c = add_octave_by_highest c /\ pitches_ok (after add_octave c).
Proof.
  unfold pitches_ok, after. intros Hok Hlast.
  rewrite add_octave_eq. unfold add_octave_by_highest.
  remember (pitches c) as ps eqn:Hps.
  destruct (highest ps) as [h|] eqn:Hh.
  2:{ destruct ps; [|discriminate]. cbn. rewrite <- Hps. now split. }
  symmetry in Hlast. rewrite last_lookup in Hlast.
  assert (Hlen : (length ps =? 0)%nat = false).
  { destruct ps; [discriminate|reflexivity]. }
  replace (pred (length ps)) with (length ps - 1)%nat in Hlast by lia.
  rewrite Hlen, (list_lookup_total_correct _ _ _ Hlast). cbn [orb].
  assert (Hh_ok : pitch_ok h) by exact (Forall_lookup_1 _ _ _ _ Hok Hlast).
  rewrite (add_12_exact h Hh_ok).
  assert (Hmap : map (fun q => Int.add q 12) ps = map (fun q => q + 12) ps).
  { apply Forall_fmap_ext_1. eapply Forall_impl; [exact Hok|].
    intros q Hq. now apply add_12_exact. }
  rewrite Hmap.
  destruct (126 <? h + 12) eqn:Hguard; (split; [reflexivity|]);
    cbn [snd pitches set_pitches]; [now rewrite <- Hps|].
  apply Z.ltb_ge in Hguard.
  apply Forall_fmap. apply highest_bounds in Hh.
  eapply Forall_impl; [apply Forall_and; split; [exact Hok|exact Hh]|].
  intros q [Hq Hqh]. unfold pitch_ok in *. cbn. lia.
Qed.

(** The same for [drop_octave] on a chord whose first pitch is its
    lowest. *)
Lemma drop_octave_when_first_is_lowest (c : Chord) :
  pitches_ok c ->
  lowest (pitches c) = head (pitches c) ->
  drop_octave c = drop_octave_by_lowest c /\ pitches_ok (after drop_octave c).
Proof.
  unfold pitches_ok, after. intros Hok Hfirst.
  rewrite drop_octave_eq. unfold drop_octave_by_lowest.
  remember (pitches c) as ps eqn:Hps.
  destruct (lowest ps) as [l|] eqn:Hl.
  2:{ destruct ps; [|discriminate]. cbn. rewrite <- Hps. now split. }
  symmetry in Hfirst. rewrite head_lookup in Hfirst.
  assert (Hlen : (length ps =? 0)%nat = false).
  { destruct ps; [discriminate|reflexivity]. }
  rewrite Hlen, (list_lookup_total_correct _ _ _ Hfirst). cbn [orb].
  assert (Hl_ok : pitch_ok l) by exact (Forall_lookup_1 _ _ _ _ Hok Hfirst).
  rewrite (sub_12_exact l Hl_ok).
  assert (Hmap : map (fun q => Int.sub q 12) ps = map (fun q => q - 12) ps).
  { apply Forall_fmap_ext_1. eapply Forall_impl; [exact Hok|].
    intros q Hq. now apply sub_12_exact. }
  rewrite Hmap.
  destruct (l - 12 <? 0) eqn:Hguard; (split; [reflexivity|]);
    cbn [snd pitches set_pitches]; [now rewrite <- Hps|].
  apply Z.ltb_ge in Hguard.
  apply Forall_fmap. apply lowest_bounds in Hl.
  eapply Forall_impl; [apply Forall_and; split; [exact Hok|exact Hl]|].
  intros q [Hq Hql]. unfold pitch_ok in *. cbn. lia.
Qed.

(** X16.  The four other operations keep a chord in range on every pitch
    sequence: the duration modifiers do not touch the pitches, and [invert]
    checks the one pitch it raises. *)
Lemma other_operations_keep_range
    (one_twenty_eighth_note sixty_fourth_note dotted_sixty_fourth_note : Z)
    (op : Operation) (c : Chord) :
  op <> AddOctave -> op <> DropOctave ->
  pitches_ok c ->
  pitches_ok (after (run one_twenty_eighth_note sixty_fourth_note
                       dotted_sixty_fourth_note op) c).
Proof.
  unfold pitches_ok, after. intros Hadd Hdrop Hok.
  destruct op; cbn [run]; try congruence.
  - rewrite dot_eq.
    destruct (negb (dotted c)), (negb (double_dotted c)),
      (duration c =? one_twenty_eighth_note),
      (duration c =? dotted_sixty_fourth_note); exact Hok.
  - rewrite double_dot_eq.
    destruct (dotted c); [exact Hok|]. destruct (_ || _); exact Hok.
  - rewrite put_in_triplet_eq. destruct (triplet c); exact Hok.
  - rewrite invert_eq. remember (pitches c) as ps eqn:Hps.
    destruct (_ || _) eqn:Hguard; cbn [snd pitches set_pitches];
      [now rewrite <- Hps|].
    apply orb_false_iff in Hguard as [Hlen Hguard].
    destruct ps as [|p ps]; [discriminate|].
    apply Z.ltb_ge in Hguard. cbn in Hguard |- *.
    apply Forall_cons_1 in Hok as [Hp Hok].
    rewrite (add_12_exact p Hp) in *.
    apply Forall_app. split; [exact Hok|].
    repeat constructor; unfold pitch_ok in *; lia.
Qed.

(** C1, at its failing input.  [add_octave] checks the last pitch only and
    [drop_octave] the first: on the in-range chords [120, 60] and [60, 5]
    they return true and leave a pitch outside [0, 126].  Such chords arise
    from the methods themselves: [invert] turns the ascending, in-range
    [100, 101, 120] into [101, 120, 112], which [add_octave] then takes to
    [113, 132, 124]. *)
Theorem octave_shift_leaves_range :
  (let c := mkChord [120; 60] 4 false false false false false false false false false in
   pitches_ok c /\
   add_octave c = (true, set_pitches [132; 72] c) /\
   ~ pitches_ok (after add_octave c))
  /\
  (let c := mkChord [60; 5] 4 false false false false false false false false false in
   pitches_ok c /\
   drop_octave c = (true, set_pitches [48; -7] c) /\
   ~ pitches_ok (after drop_octave c))
  /\
  (let c := mkChord [100; 101; 120] 4 false false false false false false false false false in
   pitches_ok c /\
   invert c = (true, set_pitches [101; 120; 112] c) /\
   pitches_ok (after invert c) /\
   add_octave (after invert c) = (true, set_pitches [113; 132; 124] c) /\
   ~ pitches_ok (after add_octave (after invert c))).
Proof.
  unfold pitches_ok, pitch_ok, after. cbv zeta. split; [|split].
  - split; [repeat constructor; lia|]. split; [reflexivity|].
    match goal with |- context [add_octave ?c] =>
      change (add_octave c) with (true, set_pitches [132; 72] c) end.
    cbn. intros H. apply Forall_cons_1 in H as [H _]. lia.
  - split; [repeat constructor; lia|]. split; [reflexivity|].
    match goal with |- context [drop_octave ?c] =>
      change (drop_octave c) with (true, set_pitches [48; -7] c) end.
    cbn. intros H. apply Forall_cons_1 in H as [_ H].
    apply Forall_cons_1 in H as [H _]. lia.
  - split; [repeat constructor; lia|]. split; [reflexivity|].
    match goal with |- context [invert ?c] =>
      change (invert c) with (true, set_pitches [101; 120; 112] c) end.
    cbn [snd].
    split; [cbn; repeat constructor; lia|]. split; [reflexivity|].
    match goal with |- context [add_octave ?c] =>
      change (add_octave c) with (true, set_pitches [113; 132; 124] c) end.
    cbn. intros H. apply Forall_cons_1 in H as [_ H].
    apply Forall_cons_1 in H as [H _]. lia.
Qed.

(** C2, at its failing input.  On [120, 60] the highest pitch plus 12 is
    132, yet [add_octave] returns true where the shift guarded by the
    highest pitch returns false; on [60, 5] the lowest pitch minus 12 is -7,
    yet [drop_octave] returns true where the shift guarded by the lowest
    pitch returns false. *)
Theorem octave_shift_checks_one_end_only :
  (let c := mkChord [120; 60] 4 false false false false false false false false false in
   highest (pitches c) = Some 120 /\ 126 < 120 + 12 /\
   result add_octave c = true /\
   result add_octave_by_highest c = false)
  /\
  (let c := mkChord [60; 5] 4 false false false false false false false false false in
   lowest (pitches c) = Some 5 /\ 5 - 12 < 0 /\
   result drop_octave c = true /\
   result drop_octave_by_lowest c = false).
Proof.
  cbv zeta. repeat split; reflexivity.
Qed.

(** The two refusals listed among the testable properties. *)
Example add_octave_refuses_115_120 (c : Chord) :
  pitches c = [115; 120] -> add_octave c = (false, c).
Proof. intros H. rewrite add_octave_eq, H. reflexivity. Qed.

Example drop_octave_refuses_5_64_67 (c : Chord) :
  pitches c = [5; 64; 67] -> drop_octave c = (false, c).
Proof. intros H. rewrite drop_octave_eq, H. reflexivity. Qed.

(** ** Concrete chords

    The examples below count durations in one-hundred-twenty-eighth notes:
    the one-hundred-twenty-eighth note is 1, the sixty-fourth note 2, the
    dotted sixty-fourth note 3 and the quarter note 32. *)

(** [add_octave] refuses [115, 120] and leaves it alone. *)
Lemma failed_operation_changes_nothing_witness :
  let c := plain_chord [115; 120] 32 in
  result (run 1 2 3 AddOctave) c = false /\ after (run 1 2 3 AddOctave) c = c.
Proof.
  cbv zeta. split; [reflexivity|].
  apply (failed_operation_changes_nothing 1 2 3 AddOctave
           (plain_chord [115; 120] 32)).
  reflexivity.
Defined.

(** The inversion of a chord that starts on middle C. *)
Lemma invert_moves_bottom_note_up_witness :
  let c := plain_chord [60; 64; 67] 32 in
  Int.in_range (pitches c !!! 0%nat + 12) /\
  result invert c = true /\
  after invert c = set_pitches [64; 67; 72] c.
Proof.
  cbv zeta.
  assert (Hr : Int.in_range
                 (pitches (plain_chord [60; 64; 67] 32) !!! 0%nat + 12))
    by (apply in_rangeb_spec; reflexivity).
  split; [exact Hr|]. split; [reflexivity|].
  exact (proj1 (proj2 (proj2 invert_moves_bottom_note_up))
           (plain_chord [60; 64; 67] 32) Hr eq_refl).
Defined.

(** Two chords that agree in every field are equal in both directions. *)
Lemma equals_structural_witness :
  let a := plain_chord [60; 64; 67] 32 in
  let b := Chord_init [60; 64; 67] 32 0 0 0 0 0 0 0 0 0 in
  result (equals b) a = true /\ result (equals a) b = true.
Proof.
  cbv zeta. split; [reflexivity|].
  apply (proj1 (proj2 (proj2 (proj2 equals_structural)))
           (plain_chord [60; 64; 67] 32)
           (Chord_init [60; 64; 67] 32 0 0 0 0 0 0 0 0 0)).
  reflexivity.
Defined.

(** C7 fails as stated: a duration of 4 becomes 2 after the two calls, and
    three times 2 is not two times 4. *)
Lemma put_in_triplet_twice_counterexample :
  ~ (forall c : Chord,
       triplet c = false ->
       let c2 := after put_in_triplet (after put_in_triplet c) in
       result put_in_triplet c = true /\
       result put_in_triplet (after put_in_triplet c) = false /\
       3 * duration c2 = 2 * duration c /\
       triplet c2 = true).
Proof.
  intros H.
  destruct (H (plain_chord [60; 64; 67] 4) eq_refl) as (_ & _ & Hd & _).
  vm_compute in Hd. discriminate.
Qed.

(** A duration of 96 becomes 64. *)
Lemma put_in_triplet_twice_witness :
  let c := plain_chord [60; 64; 67] 96 in
  triplet c = false /\ Int.in_range (duration c) /\
  duration (after put_in_triplet (after put_in_triplet c)) = 64.
Proof.
  cbv zeta. split; [reflexivity|].
  assert (Hr : Int.in_range (duration (plain_chord [60; 64; 67] 96)))
    by (apply in_rangeb_spec; reflexivity).
  split; [exact Hr|].
  destruct (put_in_triplet_twice (plain_chord [60; 64; 67] 96) eq_refl Hr)
    as (_ & _ & _ & _ & Hd & _).
  exact Hd.
Defined.

(** C5 fails as stated: a duration of 6 becomes 9 and then 7 under two
    dots (and 7 under [double_dot]), and four times 7 is not seven
    times 6. *)
Lemma two_dots_counterexample :
  ~ (forall (one_twenty_eighth_note sixty_fourth_note
             dotted_sixty_fourth_note : Z) (c : Chord),
       let dot := dot one_twenty_eighth_note dotted_sixty_fourth_note in
       let double_dot := double_dot one_twenty_eighth_note sixty_fourth_note in
       dotted c = false -> double_dotted c = false ->
       duration c <> one_twenty_eighth_note ->
       duration c <> sixty_fourth_note ->
       duration c <> dotted_sixty_fourth_note ->
       result dot c = true ->
       result dot (after dot c) = true ->
       result double_dot c = true ->
       let c2 := after dot (after dot c) in
       4 * duration c2 = 7 * duration c /\
       dotted c2 = true /\ double_dotted c2 = true /\
       4 * duration (after double_dot c) = 7 * duration c).
Proof.
  intros H.
  destruct (H 1 2 3 (plain_chord [60; 64; 67] 6)) as (Hd & _);
    try reflexivity; try (cbn; lia).
  vm_compute in Hd. discriminate.
Qed.

(** A quarter note of 32 becomes 56 on either path. *)
Lemma two_dots_are_double_dot_witness :
  let c := plain_chord [60; 64; 67] 32 in
  dotted c = false /\ double_dotted c = false /\
  duration c <> 1 /\ duration c <> 2 /\
  Int.in_range (Z.quot (3 * duration c) 2) /\
  Z.quot (3 * duration c) 2 <> 3 /\
  after (dot 1 3) (after (dot 1 3) c) = after (double_dot 1 2) c /\
  duration (after (double_dot 1 2) c) = 56.
Proof.
  cbv zeta.
  assert (Hr : Int.in_range (Z.quot (3 * duration (plain_chord [60; 64; 67] 32)) 2))
    by (apply in_rangeb_spec; reflexivity).
  assert (H3 : Z.quot (3 * duration (plain_chord [60; 64; 67] 32)) 2 <> 3)
    by (vm_compute; discriminate).
  do 2 (split; [reflexivity|]). do 2 (split; [cbn; lia|]).
  split; [exact Hr|]. split; [exact H3|].
  destruct (two_dots_are_double_dot 1 2 3 (plain_chord [60; 64; 67] 32)
              eq_refl eq_refl ltac:(cbn; lia) ltac:(cbn; lia) Hr H3)
    as (_ & _ & _ & Hsame & _).
  split; [exact Hsame|reflexivity].
Defined.

(** C10 fails as stated: a duration of -5 becomes -7, and the floor of
    -15 / 2 is -8. *)
Lemma first_dot_counterexample :
  ~ (forall (one_twenty_eighth_note dotted_sixty_fourth_note : Z) (c : Chord),
       dotted c = false -> double_dotted c = false ->
       duration c <> one_twenty_eighth_note ->
       Z.odd (duration c) = true ->
       duration (after (dot one_twenty_eighth_note dotted_sixty_fourth_note) c)
         = (3 * duration c) / 2).
Proof.
  intros H.
  specialize (H 1 3 (plain_chord [60; 64; 67] (-5)) eq_refl eq_refl
                ltac:(cbn; lia) eq_refl).
  vm_compute in H. discriminate.
Qed.

(** A duration of 5 becomes 7. *)
Lemma first_dot_rounds_toward_zero_witness :
  let c := plain_chord [60; 64; 67] 5 in
  dotted c = false /\ double_dotted c = false /\ duration c <> 1 /\
  Int.in_range (Z.quot (3 * duration c) 2) /\
  duration (after (dot 1 3) c) = 7.
Proof.
  cbv zeta.
  assert (Hr : Int.in_range (Z.quot (3 * duration (plain_chord [60; 64; 67] 5)) 2))
    by (apply in_rangeb_spec; reflexivity).
  do 2 (split; [reflexivity|]). split; [cbn; lia|]. split; [exact Hr|].
  destruct (first_dot_rounds_toward_zero 1 3 (plain_chord [60; 64; 67] 5)
              eq_refl eq_refl ltac:(cbn; lia) Hr)
    as (_ & Hd & _).
  exact Hd.
Defined.

(** Whatever the duration table, some chord on which both paths run has a
    doubly dotted duration that is not seven quarters of the original. *)
Lemma two_dots_inexact_in_every_table
    (one_twenty_eighth_note sixty_fourth_note dotted_sixty_fourth_note : Z) :
  exists d : Z,
    let c := plain_chord [60; 64; 67] d in
    let dot := dot one_twenty_eighth_note dotted_sixty_fourth_note in
    let double_dot := double_dot one_twenty_eighth_note sixty_fourth_note in
    d <> one_twenty_eighth_note /\ d <> sixty_fourth_note /\
    d <> dotted_sixty_fourth_note /\
    result dot c = true /\ result dot (after dot c) = true /\
    result double_dot c = true /\
    after dot (after dot c) = after double_dot c /\
    4 * duration (after double_dot c) <> 7 * d.
Proof.
  set (ok := fun d : Z =>
    d <> one_twenty_eighth_note /\ d <> sixty_fourth_note /\
    d <> dotted_sixty_fourth_note /\
    Z.quot (3 * d) 2 <> dotted_sixty_fourth_note).
  assert (Hsome : ok 5 \/ ok 6 \/ ok 9 \/ ok 10 \/ ok 13)
    by (unfold ok; change (Z.quot (3 * 5) 2) with 7;
        change (Z.quot (3 * 6) 2) with 9; change (Z.quot (3 * 9) 2) with 13;
        change (Z.quot (3 * 10) 2) with 15;
        change (Z.quot (3 * 13) 2) with 19; lia).
  assert (Hone : forall d, ok d ->
            Int.in_range (Z.quot (3 * d) 2) ->
            4 * Int.mul (Int.div d 4) 7 <> 7 * d ->
            exists d : Z,
              let c := plain_chord [60; 64; 67] d in
              d <> one_twenty_eighth_note /\ d <> sixty_fourth_note /\
              d <> dotted_sixty_fourth_note /\
              result (dot one_twenty_eighth_note dotted_sixty_fourth_note) c = true /\
              result (dot one_twenty_eighth_note dotted_sixty_fourth_note)
                (after (dot one_twenty_eighth_note dotted_sixty_fourth_note) c) = true /\
              result (double_dot one_twenty_eighth_note sixty_fourth_note) c = true /\
              after (dot one_twenty_eighth_note dotted_sixty_fourth_note)
                (after (dot one_twenty_eighth_note dotted_sixty_fourth_note) c)
                = after (double_dot one_twenty_eighth_note sixty_fourth_note) c /\
              4 * duration (after (double_dot one_twenty_eighth_note sixty_fourth_note) c)
                <> 7 * d).
  { intros d (H128 & H64 & Hd64 & Hq) Hfit Hinexact. exists d. cbv zeta.
    destruct (two_dots_run one_twenty_eighth_note sixty_fourth_note
                dotted_sixty_fourth_note (plain_chord [60; 64; 67] d)
                eq_refl eq_refl H128 H64 Hfit Hq) as (Hr1 & Hrun2 & Hrun).
    unfold result, after in *. rewrite Hrun2, Hrun. cbn [fst snd].
    repeat (split; [assumption || reflexivity|]). exact Hinexact. }
  destruct Hsome as [H|[H|[H|[H|H]]]];
    (eapply Hone; [exact H|apply in_rangeb_spec; reflexivity
                  |vm_compute; discriminate]).
Qed.

(** Whatever the duration table, some chord with an odd duration is dotted
    to a duration that is not the floor of its three halves. *)
Lemma first_dot_is_not_floor_in_every_table
    (one_twenty_eighth_note dotted_sixty_fourth_note : Z) :
  exists d : Z,
    d <> one_twenty_eighth_note /\ Z.odd d = true /\
    duration (after (dot one_twenty_eighth_note dotted_sixty_fourth_note)
                (plain_chord [60; 64; 67] d))
      <> (3 * d) / 2.
Proof.
  assert (Hone : forall d, d <> one_twenty_eighth_note ->
            duration (after (dot one_twenty_eighth_note dotted_sixty_fourth_note)
                        (plain_chord [60; 64; 67] d)) = Int.mul_1_5 d).
  { intros d Hd. unfold after.
    now rewrite (dot_when_not_dotted _ _ (plain_chord [60; 64; 67] d)). }
  destruct (Z.eq_dec one_twenty_eighth_note (-5)) as [->|Hne].
  - exists (-7). rewrite Hone by lia.
    split; [lia|]. split; [reflexivity|]. vm_compute. discriminate.
  - exists (-5). rewrite Hone by lia.
    split; [lia|]. split; [reflexivity|]. vm_compute. discriminate.
Qed.

(** ** Further properties of the methods *)

(** Splits the goal along the branches the closed forms of the methods
    take. *)
Ltac method_cases :=
  unfold result, after;
  rewrite ?dot_eq, ?double_dot_eq, ?put_in_triplet_eq, ?add_octave_eq,
    ?drop_octave_eq, ?invert_eq;
  repeat match goal with
         | |- context [if ?b then _ else _] => destruct b eqn:?
         end;
  cbn [fst snd].

(** X1.  [dot] succeeds at most twice in a row: whatever the chord and the
    duration table, a third call returns false and changes nothing. *)
Theorem third_dot_fails
    (one_twenty_eighth_note dotted_sixty_fourth_note : Z) (c : Chord) :
  let dot := dot one_twenty_eighth_note dotted_sixty_fourth_note in
  let c2 := after dot (after dot c) in
  dot c2 = (false, c2).
Proof.
  cbv zeta. unfold after. rewrite !dot_eq.
  destruct c as [ps d t [|] [|] s te a f ti sl];
    destruct (d =? one_twenty_eighth_note) eqn:H128,
      (d =? dotted_sixty_fourth_note) eqn:Hd64,
      (Int.mul_1_5 d =? dotted_sixty_fourth_note) eqn:Hd64';
    repeat (progress (simpl; rewrite ?H128, ?Hd64, ?Hd64'));
    reflexivity.
Qed.

(** X2.  A successful [double_dot] is final: the chord then refuses both another
    [double_dot] and a [dot]. *)
Theorem double_dot_is_final
    (one_twenty_eighth_note sixty_fourth_note dotted_sixty_fourth_note : Z)
    (c : Chord) :
  let double_dot := double_dot one_twenty_eighth_note sixty_fourth_note in
  result double_dot c = true ->
  let c' := after double_dot c in
  double_dot c' = (false, c') /\
  dot one_twenty_eighth_note dotted_sixty_fourth_note c' = (false, c').
Proof.
  cbv zeta. unfold result, after. rewrite (double_dot_eq _ _ c).
  destruct (dotted c); [discriminate|].
  destruct (_ || _); [discriminate|]. intros _. cbn [snd].
  rewrite double_dot_eq, dot_eq. split; reflexivity.
Qed.

(** X3.  Once [dot] has succeeded, [double_dot] is refused. *)
Theorem double_dot_after_dot_fails
    (one_twenty_eighth_note sixty_fourth_note dotted_sixty_fourth_note : Z)
    (c : Chord) :
  let dot := dot one_twenty_eighth_note dotted_sixty_fourth_note in
  result dot c = true ->
  double_dot one_twenty_eighth_note sixty_fourth_note (after dot c)
    = (false, after dot c).
Proof.
  cbv zeta. unfold result, after. rewrite (dot_eq _ _ c), double_dot_eq.
  destruct (dotted c) eqn:Hd; cbn.
  - destruct (negb (double_dotted c)); [|discriminate].
    destruct (duration c =? dotted_sixty_fourth_note); [discriminate|].
    intros _. cbn. now rewrite Hd.
  - destruct (duration c =? one_twenty_eighth_note); [discriminate|].
    reflexivity.
Qed.

(** Adding or subtracting 12 never gives back the same [int]. *)
Lemma add_12_changes (p : Z) : Int.add p 12 <> p.
Proof.
  unfold Int.add, Int.wrap. intros H.
  pose proof (Z.mod_pos_bound (p + 12 + 2 ^ 31) (2 ^ 32) ltac:(lia)).
  pose proof (Z.div_mod (p + 12 + 2 ^ 31) (2 ^ 32) ltac:(lia)). lia.
Qed.

Lemma sub_12_changes (p : Z) : Int.sub p 12 <> p.
Proof.
  unfold Int.sub, Int.wrap. intros H.
  pose proof (Z.mod_pos_bound (p - 12 + 2 ^ 31) (2 ^ 32) ltac:(lia)).
  pose proof (Z.div_mod (p - 12 + 2 ^ 31) (2 ^ 32) ltac:(lia)). lia.
Qed.

Lemma map_changes (f : Z -> Z) (ps : list Z) :
  (forall p, f p <> p) -> ps <> [] -> map f ps <> ps.
Proof.
  intros Hf Hne. destruct ps as [|p ps]; [congruence|].
  cbn. intros [= H _]. now apply (Hf p).
Qed.

(** Moving the first element to the back, changed, changes the list. *)
Lemma rotation_changes (p x : Z) (ps : list Z) :
  ps ++ [x] = p :: ps -> x = p.
Proof.
  revert p. induction ps as [|q ps IH]; intros p; cbn.
  - now intros [= ->].
  - intros [= -> H]. now apply IH.
Qed.

Section EveryOperation.

Variables one_twenty_eighth_note sixty_fourth_note : Z.
Variable dotted_sixty_fourth_note : Z.

Local Abbreviation perform :=
  (run one_twenty_eighth_note sixty_fourth_note dotted_sixty_fourth_note).

(** X4.  No operation touches the six articulation flags, and none clears
    [triplet], [dotted] or [double_dotted]. *)
Theorem flags_are_only_ever_set (op : Operation) (c : Chord) :
  let c' := after (perform op) c in
  (staccato c' = staccato c /\ tenuto c' = tenuto c /\
   accent c' = accent c /\ fermata c' = fermata c /\
   tied c' = tied c /\ slurred c' = slurred c) /\
  (triplet c = true -> triplet c' = true) /\
  (dotted c = true -> dotted c' = true) /\
  (double_dotted c = true -> double_dotted c' = true).
Proof.
  cbv zeta. destruct op; cbn [run]; method_cases;
    destruct c; cbn; intuition congruence.
Qed.

(** X5.  The duration modifiers leave the pitches alone, and the octave shifts
    and the inversion leave the duration and the rhythmic flags alone. *)
Theorem pitch_and_duration_operations_are_separate
    (op : Operation) (c : Chord) :
  let c' := after (perform op) c in
  (on_pitches op = false -> pitches c' = pitches c) /\
  (on_pitches op = true ->
     duration c' = duration c /\ triplet c' = triplet c /\
     dotted c' = dotted c /\ double_dotted c' = double_dotted c).
Proof.
  cbv zeta. destruct op; cbn [run on_pitches]; method_cases;
    destruct c; cbn; intuition congruence.
Qed.


(** X7.  No operation changes the number of pitches; [invert] in particular
    removes one and adds one. *)
Theorem number_of_pitches_is_kept (op : Operation) (c : Chord) :
  length (pitches (after (perform op) c)) = length (pitches c).
Proof.
  destruct op; cbn [run]; method_cases; try reflexivity;
    cbn [pitches set_pitches]; rewrite ?length_map; try reflexivity.
  rewrite length_app. cbn.
  destruct (pitches c) as [|p ps]; cbn in *; [discriminate|lia].
Qed.

(** X8.  The returned boolean tells exactly whether the chord has changed: an
    operation that returns true leaves a different chord, one that returns
    false the same chord. *)
Theorem returns_true_exactly_when_chord_changes
    (op : Operation) (c : Chord) :
  result (perform op) c = true <-> after (perform op) c <> c.
Proof.
  assert (Hfield : forall (A : Type) (field : Chord -> A) (c1 c2 : Chord),
            field c1 <> field c2 -> c1 <> c2) by (intros; congruence).
  destruct op; cbn [run]; method_cases;
    try (split; [discriminate|congruence]);
    (split; [intros _|reflexivity]).
  - apply (Hfield _ dotted). cbn.
    destruct (dotted c); [discriminate|congruence].
  - apply (Hfield _ double_dotted). cbn.
    destruct (double_dotted c); [discriminate|congruence].
  - apply (Hfield _ dotted). cbn. destruct (dotted c); congruence.
  - apply (Hfield _ triplet). cbn. destruct (triplet c); congruence.
  - apply (Hfield _ pitches). cbn. apply map_changes.
    + apply add_12_changes.
    + destruct (pitches c); [discriminate|congruence].
  - apply (Hfield _ pitches). cbn. apply map_changes.
    + apply sub_12_changes.
    + destruct (pitches c); [discriminate|congruence].
  - apply (Hfield _ pitches). cbn.
    destruct (pitches c) as [|p ps]; [discriminate|]. cbn.
    intros H. apply rotation_changes in H. now apply add_12_changes in H.
Qed.

End EveryOperation.

(** ** Octave shifts undo one another *)

Lemma sub_add_12 (p : Z) : Int.in_range p -> Int.sub (Int.add p 12) 12 = p.
Proof.
  intros Hp. unfold Int.sub, Int.add, Int.wrap.
  replace ((p + 12 + 2 ^ 31) mod 2 ^ 32 - 2 ^ 31 - 12 + 2 ^ 31)
    with ((p + 12 + 2 ^ 31) mod 2 ^ 32 - 12) by lia.
  rewrite Zminus_mod_idemp_l.
  replace (p + 12 + 2 ^ 31 - 12) with (p + 2 ^ 31) by lia.
  now apply wrap_in_range.
Qed.

Lemma add_sub_12 (p : Z) : Int.in_range p -> Int.add (Int.sub p 12) 12 = p.
Proof.
  intros Hp. unfold Int.sub, Int.add, Int.wrap.
  replace ((p - 12 + 2 ^ 31) mod 2 ^ 32 - 2 ^ 31 + 12 + 2 ^ 31)
    with ((p - 12 + 2 ^ 31) mod 2 ^ 32 + 12) by lia.
  rewrite Zplus_mod_idemp_l.
  replace (p - 12 + 2 ^ 31 + 12) with (p + 2 ^ 31) by lia.
  now apply wrap_in_range.
Qed.

Lemma map_inverse (f g : Z -> Z) (P : Z -> Prop) (ps : list Z) :
  (forall p, P p -> g (f p) = p) -> Forall P ps -> map g (map f ps) = ps.
Proof.
  intros Hgf Hps. induction Hps as [|p ps Hp _ IH]; cbn; [reflexivity|].
  now rewrite Hgf, IH.
Qed.

Lemma lookup_total_map (f : Z -> Z) (ps : list Z) (i : nat) :
  (i < length ps)%nat -> map f ps !!! i = f (ps !!! i).
Proof.
  intros Hi. apply list_lookup_total_correct.
  change (map f ps) with (f <$> ps).
  now rewrite list_lookup_fmap, (list_lookup_lookup_total_lt ps i Hi).
Qed.

(** X9.  On a chord whose pitches are [int]s with room for 12 more below
    the largest [int] (so that no sum overflows) and whose first pitch is
    not negative, a successful [add_octave] is undone by [drop_octave],
    which succeeds and gives the original chord back. *)
Theorem add_octave_then_drop_octave (c : Chord) :
  Forall Int.in_range (pitches c) ->
  Forall (fun p => Int.in_range (p + 12)) (pitches c) ->
  0 <= pitches c !!! 0%nat ->
  result add_octave c = true ->
  drop_octave (after add_octave c) = (true, c) /\
  pitches (after add_octave c) = map (fun p => p + 12) (pitches c).
Proof.
  intros Hr Hroom Hfirst Hres.
  assert (Hexact : pitches (after add_octave c)
                   = map (fun p => p + 12) (pitches c)).
  { revert Hres. unfold result, after. rewrite add_octave_eq.
    destruct (_ || _); [discriminate|]. intros _. cbn [snd pitches set_pitches].
    apply Forall_fmap_ext_1. eapply Forall_impl; [exact Hroom|].
    intros p Hp. now apply wrap_in_range. }
  split; [|exact Hexact]. clear Hexact Hroom.
  revert Hres. unfold result, after. rewrite add_octave_eq.
  destruct (length (pitches c) =? 0)%nat eqn:Hlen; [discriminate|].
  apply Nat.eqb_neq in Hlen. cbn [orb].
  destruct (126 <? _); [discriminate|]. intros _. cbn [snd].
  rewrite drop_octave_eq. cbn [pitches set_pitches].
  rewrite length_map, lookup_total_map by lia.
  assert (Hp0 : Int.in_range (pitches c !!! 0%nat)).
  { apply (Forall_lookup_total_1 _ _ 0%nat) in Hr; [exact Hr|lia]. }
  rewrite (sub_add_12 _ Hp0).
  apply Nat.eqb_neq in Hlen. rewrite Hlen.
  apply Z.ltb_ge in Hfirst. rewrite Hfirst. cbn [orb].
  rewrite (map_inverse _ _ Int.in_range) by (exact sub_add_12 || exact Hr).
  now destruct c.
Qed.

(** X10.  On a chord whose pitches are [int]s with room for 12 less above
    the smallest [int] (so that no difference overflows) and whose last
    pitch is at most 126, a successful [drop_octave] is undone by
    [add_octave], which succeeds and gives the original chord back. *)
Theorem drop_octave_then_add_octave (c : Chord) :
  Forall Int.in_range (pitches c) ->
  Forall (fun p => Int.in_range (p - 12)) (pitches c) ->
  pitches c !!! (length (pitches c) - 1)%nat <= 126 ->
  result drop_octave c = true ->
  add_octave (after drop_octave c) = (true, c) /\
  pitches (after drop_octave c) = map (fun p => p - 12) (pitches c).
Proof.
  intros Hr Hroom Hlast Hres.
  assert (Hexact : pitches (after drop_octave c)
                   = map (fun p => p - 12) (pitches c)).
  { revert Hres. unfold result, after. rewrite drop_octave_eq.
    destruct (_ || _); [discriminate|]. intros _. cbn [snd pitches set_pitches].
    apply Forall_fmap_ext_1. eapply Forall_impl; [exact Hroom|].
    intros p Hp. now apply wrap_in_range. }
  split; [|exact Hexact]. clear Hexact Hroom.
  revert Hres. unfold result, after. rewrite drop_octave_eq.
  destruct (length (pitches c) =? 0)%nat eqn:Hlen; [discriminate|].
  apply Nat.eqb_neq in Hlen. cbn [orb].
  destruct (_ <? 0); [discriminate|]. intros _. cbn [snd].
  rewrite add_octave_eq. cbn [pitches set_pitches].
  rewrite length_map, lookup_total_map by lia.
  assert (Hpl : Int.in_range (pitches c !!! (length (pitches c) - 1)%nat)).
  { apply (Forall_lookup_total_1 _ _ (length (pitches c) - 1)%nat) in Hr;
      [exact Hr|lia]. }
  rewrite (add_sub_12 _ Hpl).
  apply Nat.eqb_neq in Hlen. rewrite Hlen.
  assert (Hguard : (126 <? pitches c !!! (length (pitches c) - 1)%nat) = false)
    by (apply Z.ltb_ge; exact Hlast).
  rewrite Hguard. cbn [orb].
  rewrite (map_inverse _ _ Int.in_range) by (exact add_sub_12 || exact Hr).
  now destruct c.
Qed.

(** ** Inverting through a chord *)

(** After [k] inversions the first [k] pitches sit at the back, raised. *)
Lemma repeatedly_invert (c : Chord) (k : nat) :
  (2 <= length (pitches c))%nat ->
  Forall (fun p => Int.add p 12 <= 126) (pitches c) ->
  (k <= length (pitches c))%nat ->
  repeatedly invert k c =
    set_pitches (drop k (pitches c)
                 ++ map (fun p => Int.add p 12) (take k (pitches c))) c.
Proof.
  intros Hlen Hok. induction k as [|k IH]; intros Hk.
  - change (repeatedly invert 0 c) with c. rewrite drop_0, take_0. cbn [map].
    now rewrite app_nil_r, set_pitches_same.
  - change (repeatedly invert (S k) c)
      with (after invert (repeatedly invert k c)).
    rewrite IH by lia.
    unfold after. rewrite invert_eq. cbn [pitches set_pitches].
    assert (Hk' : pitches c !! k = Some (pitches c !!! k))
      by (apply list_lookup_lookup_total_lt; lia).
    assert (Hfirst : (drop k (pitches c)
                      ++ map (fun p => Int.add p 12) (take k (pitches c)))
                     !!! 0%nat = pitches c !!! k).
    { rewrite (drop_S _ _ _ Hk'). reflexivity. }
    rewrite Hfirst.
    replace (length _ <? 2)%nat with false.
    2:{ symmetry. apply Nat.ltb_ge.
        rewrite length_app, length_drop, length_map, length_take. lia. }
    replace (126 <? Int.add (pitches c !!! k) 12) with false.
    2:{ symmetry. apply Z.ltb_ge.
        apply (Forall_lookup_1 _ _ _ _ Hok Hk'). }
    cbn [orb snd]. destruct c as [ps d t dt dd s te a f ti sl]; cbn in *.
    unfold set_pitches; cbn. f_equal.
    rewrite (drop_S _ _ _ Hk'), (take_S_r _ _ _ Hk'). cbn.
    rewrite map_app. cbn. now rewrite <- app_assoc.
Qed.

(** X11.  On a chord of at least two [int] pitches, each at most 114 (so
    that each plus 12 is at most 126), inverting once per pitch moves the
    whole chord up an octave: it gives what one [add_octave] gives, every
    pitch raised by 12. *)
Theorem inverting_through_is_add_octave (c : Chord) :
  (2 <= length (pitches c))%nat ->
  Forall Int.in_range (pitches c) ->
  Forall (fun p => p + 12 <= 126) (pitches c) ->
  add_octave c
    = (true, repeatedly invert (length (pitches c)) c) /\
  pitches (repeatedly invert (length (pitches c)) c)
    = map (fun p => p + 12) (pitches c).
Proof.
  intros Hlen Hr Hroom.
  assert (Hboth : Forall (fun p => Int.add p 12 = p + 12 /\ p + 12 <= 126)
                    (pitches c)).
  { eapply Forall_impl; [apply Forall_and; split; [exact Hr|exact Hroom]|].
    cbn. intros p [Hp Hle].
    split; [|exact Hle]. apply wrap_in_range.
    unfold Int.in_range, Int.INT_MIN, Int.INT_MAX in *. lia. }
  assert (Hok : Forall (fun p => Int.add p 12 <= 126) (pitches c)).
  { eapply Forall_impl; [exact Hboth|]. cbn. intros p [-> Hle]. exact Hle. }
  rewrite repeatedly_invert by (assumption || lia).
  rewrite drop_all, take_ge by lia. cbn [app].
  split.
  - rewrite add_octave_eq.
    replace (length (pitches c) =? 0)%nat with false
      by (symmetry; apply Nat.eqb_neq; lia).
    replace (126 <? _) with false; [reflexivity|].
    symmetry. apply Z.ltb_ge.
    apply (Forall_lookup_total_1 _ _ (length (pitches c) - 1)%nat) in Hok;
      [exact Hok|lia].
  - cbn [pitches set_pitches]. apply Forall_fmap_ext_1.
    eapply Forall_impl; [exact Hboth|]. cbn. now intros p [-> _].
Qed.

(** ** Pitch classes *)

Lemma pitch_class_add_12 (p : Z) :
  pitch_ok p -> pitch_class (Int.add p 12) = pitch_class p.
Proof.
  intros Hp. rewrite (add_12_exact p Hp). unfold pitch_class.
  replace (p + 12) with (p + 1 * 12) by lia. apply Z_mod_plus_full.
Qed.

Lemma pitch_class_sub_12 (p : Z) :
  pitch_ok p -> pitch_class (Int.sub p 12) = pitch_class p.
Proof.
  intros Hp. rewrite (sub_12_exact p Hp). unfold pitch_class.
  replace (p - 12) with (p + (-1) * 12) by lia. apply Z_mod_plus_full.
Qed.

Lemma map_pitch_class_shift (f : Z -> Z) (ps : list Z) :
  (forall p, pitch_ok p -> pitch_class (f p) = pitch_class p) ->
  Forall pitch_ok ps ->
  map pitch_class (map f ps) = map pitch_class ps.
Proof.
  intros Hf Hps. induction Hps as [|p ps Hp _ IH]; cbn; [reflexivity|].
  now rewrite Hf, IH.
Qed.

(** X12.  Whatever an operation does to a chord in range, the chord keeps
    its pitch classes.  Every operation but a successful [invert] keeps
    them position by position; a successful [invert] rotates them by one
    place, the first class going to the back. *)
Theorem pitch_classes_are_kept
    (one_twenty_eighth_note sixty_fourth_note dotted_sixty_fourth_note : Z)
    (op : Operation) (c : Chord) :
  pitches_ok c ->
  let m := run one_twenty_eighth_note sixty_fourth_note
             dotted_sixty_fourth_note op in
  let classes := map pitch_class (pitches c) in
  let classes' := map pitch_class (pitches (after m c)) in
  (op <> Invert \/ result m c = false -> classes' = classes) /\
  (op = Invert -> result m c = true -> classes' = rotate 1 classes) /\
  classes' ≡ₚ classes.
Proof.
  unfold pitches_ok. intros Hok. cbv zeta.
  assert (Hrot : forall m : Method bool,
            m = invert -> result m c = true ->
            map pitch_class (pitches (after m c))
              = rotate 1 (map pitch_class (pitches c))).
  { intros m -> . unfold result, after. rewrite invert_eq.
    destruct (length (pitches c) <? 2)%nat eqn:Hlen; [discriminate|].
    apply Nat.ltb_ge in Hlen. cbn [orb].
    destruct (126 <? _); [discriminate|]. intros _.
    cbn [snd pitches set_pitches].
    destruct (pitches c) as [|p [|q t]]; cbn in Hlen; [lia|lia|].
    apply Forall_cons_1 in Hok as [Hp _].
    cbn [tail]. change ((p :: q :: t) !!! 0%nat) with p.
    rewrite map_app. cbn [map]. rewrite (pitch_class_add_12 p Hp).
    unfold rotate. cbn [length map].
    rewrite Nat.mod_small by lia. reflexivity. }
  destruct op; cbn [run].
  1-5: (split; [|split; [congruence|]]);
    [intros _|]; method_cases; try reflexivity; cbn [pitches set_pitches];
    rewrite ?(map_pitch_class_shift _ _ pitch_class_add_12 Hok),
      ?(map_pitch_class_shift _ _ pitch_class_sub_12 Hok); reflexivity.
  split; [|split].
  - intros [Hne|Hres]; [congruence|].
    revert Hres. unfold result, after. rewrite invert_eq.
    destruct (_ || _); [reflexivity|discriminate].
  - intros _ Hres. now apply Hrot.
  - destruct (result invert c) eqn:Hres.
    + rewrite (Hrot invert eq_refl Hres). unfold rotate.
      symmetry. rewrite <- (take_drop (1 `mod` length (map pitch_class (pitches c)))
                              (map pitch_class (pitches c))) at 1.
      apply Permutation_app_comm.
    + revert Hres. unfold result, after. rewrite invert_eq.
      destruct (_ || _); [reflexivity|discriminate].
Qed.

(** ** Chords listed from the bottom note up *)

Lemma foldr_max_elem (p : Z) (ps : list Z) : foldr Z.max p ps ∈ p :: ps.
Proof.
  induction ps as [|q ps IH]; cbn; [left|].
  destruct (Z.max_spec q (foldr Z.max p ps)) as [[_ ->]|[_ ->]].
  - apply elem_of_cons in IH as [->|IH]; [left|right; now right].
  - right; left.
Qed.

Lemma foldr_min_elem (p : Z) (ps : list Z) : foldr Z.min p ps ∈ p :: ps.
Proof.
  induction ps as [|q ps IH]; cbn; [left|].
  destruct (Z.min_spec q (foldr Z.min p ps)) as [[_ ->]|[_ ->]].
  - right; left.
  - apply elem_of_cons in IH as [->|IH]; [left|right; now right].
Qed.

(** The last pitch of an ascending sequence is its highest and the first
    its lowest. *)
Lemma ascending_highest_is_last (ps : list Z) :
  ascending ps -> highest ps = last ps.
Proof.
  intros Hasc. destruct ps as [|p ps]; [reflexivity|].
  cbn [highest]. rewrite last_lookup.
  destruct (lookup_lt_is_Some_2 (p :: ps) (pred (length (p :: ps))))
    as [y Hy]; [cbn; lia|].
  rewrite Hy. f_equal. apply Z.le_antisymm.
  - destruct (list_elem_of_lookup_1 _ _ (foldr_max_elem p ps)) as [i Hi].
    apply (Hasc i (pred (length (p :: ps))) _ _); [|exact Hi|exact Hy].
    apply lookup_lt_Some in Hi. lia.
  - destruct (foldr_max_bounds p ps) as [Hp Hps].
    assert (Hall : Forall (fun q => q <= foldr Z.max p ps) (p :: ps))
      by now constructor.
    exact (Forall_lookup_1 _ _ _ _ Hall Hy).
Qed.

Lemma ascending_lowest_is_first (ps : list Z) :
  ascending ps -> lowest ps = head ps.
Proof.
  intros Hasc. destruct ps as [|p ps]; [reflexivity|].
  cbn [lowest head]. f_equal. apply Z.le_antisymm.
  - now destruct (foldr_min_bounds p ps).
  - destruct (list_elem_of_lookup_1 _ _ (foldr_min_elem p ps)) as [i Hi].
    apply (Hasc 0%nat i _ _); [lia|reflexivity|exact Hi].
Qed.

Lemma ascending_map (f : Z -> Z) (P : Z -> Prop) (ps : list Z) :
  (forall x y, P x -> P y -> x <= y -> f x <= f y) ->
  Forall P ps -> ascending ps -> ascending (map f ps).
Proof.
  intros Hf HP Hasc i j x y Hij Hx Hy.
  apply list_lookup_fmap_Some_1 in Hx as (x' & -> & Hx).
  apply list_lookup_fmap_Some_1 in Hy as (y' & -> & Hy).
  apply Hf.
  - exact (Forall_lookup_1 _ _ _ _ HP Hx).
  - exact (Forall_lookup_1 _ _ _ _ HP Hy).
  - exact (Hasc i j _ _ Hij Hx Hy).
Qed.

(** X13.  On an ascending chord in range the guard of [add_octave] is the right
    one: the method refuses exactly when the highest pitch plus 12 exceeds
    126, and the chord it leaves is again in range and ascending. *)
Theorem add_octave_on_ascending_chord (c : Chord) :
  pitches_ok c -> ascending (pitches c) ->
  add_octave c = add_octave_by_highest c /\
  pitches_ok (after add_octave c) /\
  ascending (pitches (after add_octave c)).
Proof.
  intros Hok Hasc.
  destruct (add_octave_when_last_is_highest c Hok
              (ascending_highest_is_last _ Hasc)) as [Heq Hok'].
  split; [exact Heq|]. split; [exact Hok'|].
  unfold after. rewrite add_octave_eq.
  destruct (_ || _); cbn [snd pitches set_pitches]; [exact Hasc|].
  apply (ascending_map _ pitch_ok); [|exact Hok|exact Hasc].
  intros x y Hx Hy Hxy. rewrite !add_12_exact by assumption. lia.
Qed.

(** X14.  The same for [drop_octave] and the lowest pitch. *)
Theorem drop_octave_on_ascending_chord (c : Chord) :
  pitches_ok c -> ascending (pitches c) ->
  drop_octave c = drop_octave_by_lowest c /\
  pitches_ok (after drop_octave c) /\
  ascending (pitches (after drop_octave c)).
Proof.
  intros Hok Hasc.
  destruct (drop_octave_when_first_is_lowest c Hok
              (ascending_lowest_is_first _ Hasc)) as [Heq Hok'].
  split; [exact Heq|]. split; [exact Hok'|].
  unfold after. rewrite drop_octave_eq.
  destruct (_ || _); cbn [snd pitches set_pitches]; [exact Hasc|].
  apply (ascending_map _ pitch_ok); [|exact Hok|exact Hasc].
  intros x y Hx Hy Hxy. rewrite !sub_12_exact by assumption. lia.
Qed.

(** ** How exact the duration modifiers are *)

Lemma quot_in_range (d k : Z) :
  0 < k -> Int.in_range d -> Int.in_range (Z.quot d k).
Proof.
  unfold Int.in_range, Int.INT_MIN, Int.INT_MAX. intros Hk Hd.
  destruct (quot_bracket d k Hk) as [Hpos Hneg].
  destruct (Z.le_ge_cases 0 d) as [H0|H0].
  - specialize (Hpos H0). pose proof (Z.quot_pos d k H0 ltac:(lia)). nia.
  - specialize (Hneg H0).
    assert (Z.quot d k <= 0)
      by (replace d with (- (- d)) by lia; rewrite Z.quot_opp_l by lia;
          pose proof (Z.quot_pos (- d) k ltac:(lia) ltac:(lia)); lia).
    nia.
Qed.

Lemma div_mul_exact (d k m : Z) :
  0 < k -> Int.in_range d -> Int.in_range (m * Z.quot d k) ->
  Int.mul (Int.div d k) m = Z.quot d k * m.
Proof.
  intros Hk Hd Hm. unfold Int.mul, Int.div.
  rewrite (wrap_in_range (Z.quot d k)) by now apply quot_in_range.
  rewrite (Z.mul_comm (Z.quot d k) m). now apply wrap_in_range.
Qed.

(** Dividing by [k] and multiplying by [m] gives [m / k] of the original
    exactly when [k] divides it, and gives zero exactly below [k]. *)
Lemma quot_mul_exactness (d k m : Z) :
  0 < k -> 0 < m ->
  (k * (Z.quot d k * m) = m * d <-> (k | d)) /\
  (Z.quot d k * m = 0 <-> - k < d < k).
Proof.
  intros Hk Hm. destruct (quot_bracket d k Hk) as [Hpos Hneg]. split; split.
  - intros H. exists (Z.quot d k). nia.
  - intros [q ->]. rewrite Z.quot_mul by lia. lia.
  - intros H. assert (Z.quot d k = 0) as Hq by nia.
    rewrite Hq in *.
    destruct (Z.le_ge_cases 0 d);
      [specialize (Hpos ltac:(lia))|specialize (Hneg ltac:(lia))]; lia.
  - intros H. enough (Z.quot d k = 0) as -> by lia.
    apply Z.quot_small_iff; lia.
Qed.

(** C3, as the code has it.  [dot] has three branches.  With neither dot
    flag set it refuses a duration equal to the one-hundred-twenty-eighth
    note and changes nothing; otherwise it sets [dotted], sets the duration
    to three halves of it rounded toward zero (when that fits an [int]) and
    returns true: that is 1.5 times the duration exactly when the duration
    is even.  With [dotted] set and [double_dotted] clear it refuses a
    duration equal to the dotted sixty-fourth note and changes nothing;
    otherwise it sets [double_dotted], sets the duration to its sixth,
    rounded toward zero, times 7 (when that fits an [int]) and returns true:
    that is 7/6 of the duration exactly when 6 divides it.  With both flags
    set it returns false and changes nothing. *)
Theorem dot_three_branches
    (one_twenty_eighth_note dotted_sixty_fourth_note : Z) (c : Chord) :
  let dot := dot one_twenty_eighth_note dotted_sixty_fourth_note in
  let d := duration c in
  (dotted c = false -> double_dotted c = false ->
     (d = one_twenty_eighth_note -> dot c = (false, c)) /\
     (d <> one_twenty_eighth_note ->
      Int.in_range (Z.quot (3 * d) 2) ->
        dot c = (true, set_duration (Z.quot (3 * d) 2) (set_dotted true c)) /\
        (2 * Z.quot (3 * d) 2 = 3 * d <-> Z.even d = true)))
  /\
  (dotted c = true -> double_dotted c = false ->
     (d = dotted_sixty_fourth_note -> dot c = (false, c)) /\
     (d <> dotted_sixty_fourth_note ->
      Int.in_range d -> Int.in_range (7 * Z.quot d 6) ->
        dot c = (true, set_duration (Z.quot d 6 * 7)
                         (set_double_dotted true c)) /\
        (6 * (Z.quot d 6 * 7) = 7 * d <-> (6 | d))))
  /\
  (dotted c = true -> double_dotted c = true -> dot c = (false, c)).
Proof.
  cbv zeta. rewrite dot_eq. split; [|split].
  - intros -> _. cbn. split.
    + intros Hd. apply Z.eqb_eq in Hd. now rewrite Hd.
    + intros Hd Hfit. apply Z.eqb_neq in Hd. rewrite Hd.
      rewrite mul_1_5_in_range by exact Hfit. split; [reflexivity|].
      split.
      * intros H. destruct (Z.even (duration c)) eqn:He; [reflexivity|].
        assert (Z.even (3 * duration c) = true) as H3
          by (rewrite <- H, Z.even_mul; reflexivity).
        rewrite Z.even_mul, He in H3. discriminate.
      * intros He. apply Z.even_spec in He as [k Hk].
        replace (3 * duration c) with (3 * k * 2) by lia.
        rewrite Z.quot_mul by lia. lia.
  - intros -> ->. cbn. split.
    + intros Hd. apply Z.eqb_eq in Hd. now rewrite Hd.
    + intros Hd Hr H7. apply Z.eqb_neq in Hd. rewrite Hd.
      rewrite (div_mul_exact _ 6 7) by (assumption || lia).
      split; [reflexivity|].
      now destruct (quot_mul_exactness (duration c) 6 7) as [Hexact _];
        [lia..|].
  - now intros -> ->.
Qed.

(** X17.  [double_dot] refuses exactly a chord that is already dotted or whose
    duration is the one-hundred-twenty-eighth or the sixty-fourth note.
    Otherwise it sets both dot flags and, when seven times the quarter of
    the duration fits an [int], leaves the duration divided by 4, rounded
    toward zero, and multiplied by 7: seven quarters of the original exactly
    when 4 divides it, and zero exactly when the original is between -3
    and 3. *)
Theorem double_dot_scales_by_seven_quarters
    (one_twenty_eighth_note sixty_fourth_note : Z) (c : Chord) :
  let double_dot := double_dot one_twenty_eighth_note sixty_fourth_note in
  let d := duration c in
  let c' := after double_dot c in
  (result double_dot c = false <->
     dotted c = true \/ d = one_twenty_eighth_note \/ d = sixty_fourth_note)
  /\
  (result double_dot c = true ->
     Int.in_range d -> Int.in_range (7 * Z.quot d 4) ->
     dotted c' = true /\ double_dotted c' = true /\
     duration c' = Z.quot d 4 * 7 /\
     (4 * duration c' = 7 * d <-> (4 | d)) /\
     (duration c' = 0 <-> -4 < d < 4)).
Proof.
  cbv zeta. unfold result, after. rewrite double_dot_eq.
  destruct (dotted c) eqn:Hdot; cbn.
  { split; [split; auto|discriminate]. }
  destruct (duration c =? one_twenty_eighth_note) eqn:H128;
    destruct (duration c =? sixty_fourth_note) eqn:H64; cbn;
    first [apply Z.eqb_eq in H128 | apply Z.eqb_neq in H128];
    first [apply Z.eqb_eq in H64 | apply Z.eqb_neq in H64];
    try (split; [split; auto|discriminate]).
  split; [split; [discriminate|intuition congruence]|].
  intros _ Hd H7.
  rewrite (div_mul_exact _ 4 7) by (assumption || lia).
  destruct (quot_mul_exactness (duration c) 4 7) as [Hexact Hzero]; [lia..|].
  repeat (split; [reflexivity|]). split; assumption.
Qed.

(** X18.  The second [dot], on a dotted chord whose duration is not the dotted
    sixty-fourth note and fits with its seven sixths in an [int], leaves the
    duration divided by 6, rounded toward zero, and multiplied by 7: seven
    sixths of the dotted duration exactly when 6 divides it, and zero
    exactly when the dotted duration is between -5 and 5. *)
Theorem second_dot_scales_by_seven_sixths
    (one_twenty_eighth_note dotted_sixty_fourth_note : Z) (c : Chord) :
  let dot := dot one_twenty_eighth_note dotted_sixty_fourth_note in
  let d := duration c in
  let c' := after dot c in
  dotted c = true -> double_dotted c = false ->
  d <> dotted_sixty_fourth_note ->
  Int.in_range d -> Int.in_range (7 * Z.quot d 6) ->
  result dot c = true /\
  double_dotted c' = true /\
  duration c' = Z.quot d 6 * 7 /\
  (6 * duration c' = 7 * d <-> (6 | d)) /\
  (duration c' = 0 <-> -6 < d < 6).
Proof.
  cbv zeta. intros Hdot Hddot Hne Hd H7. unfold result, after.
  rewrite dot_eq, Hdot, Hddot. cbn.
  apply Z.eqb_neq in Hne. rewrite Hne. cbn.
  rewrite (div_mul_exact _ 6 7) by (assumption || lia).
  destruct (quot_mul_exactness (duration c) 6 7) as [Hexact Hzero]; [lia..|].
  repeat (split; [reflexivity|]). split; assumption.
Qed.

(** X19.  [put_in_triplet] never lengthens a duration, so it cannot overflow; it
    leaves zero exactly when the original is between -2 and 2, and the
    result is always even. *)
Theorem put_in_triplet_shortens (c : Chord) :
  let d := duration c in
  let d' := duration (after put_in_triplet c) in
  triplet c = false -> Int.in_range d ->
  Z.abs d' <= Z.abs d /\
  Int.in_range d' /\
  (d' = 0 <-> -3 < d < 3) /\
  Z.even d' = true.
Proof.
  cbv zeta. intros Ht Hd. unfold after. rewrite put_in_triplet_eq, Ht. cbn.
  rewrite triplet_duration_exact by exact Hd.
  destruct (quot_bracket (duration c) 3 ltac:(lia)) as [Hpos Hneg].
  destruct (quot_mul_exactness (duration c) 3 2) as [_ Hzero]; [lia..|].
  assert (Habs : Z.abs (Z.quot (duration c) 3 * 2) <= Z.abs (duration c)).
  { destruct (Z.le_ge_cases 0 (duration c));
      [specialize (Hpos ltac:(lia))|specialize (Hneg ltac:(lia))]; lia. }
  split; [exact Habs|]. split; [|split; [exact Hzero|]].
  - unfold Int.in_range, Int.INT_MIN, Int.INT_MAX in *. lia.
  - rewrite Z.even_mul. apply orb_true_r.
Qed.

(** ** Pitch and duration operations side by side *)

Lemma set_pitches_twice (ps qs : list Z) (c : Chord) :
  set_pitches ps (set_pitches qs c) = set_pitches ps c.
Proof. reflexivity. Qed.

Section SideBySide.

Variables one_twenty_eighth_note sixty_fourth_note : Z.
Variable dotted_sixty_fourth_note : Z.

Local Abbreviation perform :=
  (run one_twenty_eighth_note sixty_fourth_note dotted_sixty_fourth_note).

(** An operation on the pitches reads and writes the pitches only. *)
Lemma pitch_operation_form (op : Operation) (c : Chord) :
  on_pitches op = true ->
  perform op c =
    (result (perform op) (plain_chord (pitches c) 0),
     set_pitches (pitches (after (perform op) (plain_chord (pitches c) 0))) c).
Proof.
  destruct op; try discriminate; intros _; cbn [run]; unfold result, after.
  - rewrite !add_octave_eq. cbn [pitches plain_chord].
    destruct (_ || _); cbn; now rewrite ?set_pitches_same.
  - rewrite !drop_octave_eq. cbn [pitches plain_chord].
    destruct (_ || _); cbn; now rewrite ?set_pitches_same.
  - rewrite !invert_eq. cbn [pitches plain_chord].
    destruct (_ || _); cbn; now rewrite ?set_pitches_same.
Qed.

(** An operation on the duration does not read or write the pitches. *)
Lemma duration_operation_form (op : Operation) (c : Chord) :
  on_pitches op = false ->
  perform op c =
    (result (perform op) (set_pitches [] c),
     set_pitches (pitches c) (after (perform op) (set_pitches [] c))).
Proof.
  destruct op; try discriminate; intros _; cbn [run]; unfold result, after.
  - rewrite !dot_eq.
    destruct c as [ps d t [|] [|] s te a f ti sl]; cbn; try reflexivity.
    + destruct (d =? dotted_sixty_fourth_note); reflexivity.
    + destruct (d =? one_twenty_eighth_note); reflexivity.
    + destruct (d =? one_twenty_eighth_note); reflexivity.
  - rewrite !double_dot_eq.
    destruct c as [ps d t [|] dd s te a f ti sl]; cbn; try reflexivity.
    destruct (_ || _); reflexivity.
  - rewrite !put_in_triplet_eq.
    destruct c as [ps d [|] dt dd s te a f ti sl]; reflexivity.
Qed.

(** X20.  A duration modifier and a pitch operation do not interfere: each
    returns what it returns without the other, and the two orders leave the
    same chord. *)
Theorem duration_and_pitch_operations_commute
    (op1 op2 : Operation) (c : Chord) :
  on_pitches op1 = false -> on_pitches op2 = true ->
  result (perform op2) (after (perform op1) c) = result (perform op2) c /\
  result (perform op1) (after (perform op2) c) = result (perform op1) c /\
  after (perform op2) (after (perform op1) c)
    = after (perform op1) (after (perform op2) c).
Proof.
  intros H1 H2. unfold result, after.
  rewrite (duration_operation_form op1 c H1), (pitch_operation_form op2 c H2).
  cbn [fst snd].
  rewrite (pitch_operation_form op2 (set_pitches _ _) H2).
  rewrite (duration_operation_form op1 (set_pitches _ _) H1).
  cbn [fst snd pitches set_pitches]. rewrite !set_pitches_twice.
  repeat split; reflexivity.
Qed.

End SideBySide.

(** ** Inversion and the order of the pitches *)

(** X15.  A successful [invert] of an ascending chord in range leaves an
    ascending chord exactly when the chord spans at most an octave, that is
    when its last pitch is at most its first pitch plus 12.  A wider chord
    comes out with its highest pitch no longer last. *)
Theorem invert_keeps_order_within_an_octave (c : Chord) :
  pitches_ok c -> ascending (pitches c) ->
  result invert c = true ->
  ascending (pitches (after invert c)) <->
  pitches c !!! (length (pitches c) - 1)%nat <= pitches c !!! 0%nat + 12.
Proof.
  unfold pitches_ok, result, after. intros Hok Hasc. rewrite invert_eq.
  destruct (length (pitches c) <? 2)%nat eqn:Hlen; [discriminate|].
  apply Nat.ltb_ge in Hlen. cbn [orb].
  destruct (126 <? _); [discriminate|]. intros _.
  cbn [snd pitches set_pitches].
  destruct (pitches c) as [|p t]; [cbn in Hlen; lia|].
  apply Forall_cons_1 in Hok as [Hp _].
  cbn [tail length] in *.
  change ((p :: t) !!! 0%nat) with p. rewrite (add_12_exact p Hp).
  replace (S (length t) - 1)%nat with (S (pred (length t))) by lia.
  change ((p :: t) !!! S (pred (length t))) with (t !!! pred (length t)).
  assert (Hlast : t !! pred (length t) = Some (t !!! pred (length t)))
    by (apply list_lookup_lookup_total_lt; lia).
  split.
  - intros Hnew.
    apply (Hnew (pred (length t)) (length t)); [lia| |].
    + now rewrite lookup_app_l by lia.
    + rewrite lookup_app_r by lia.
      now replace (length t - length t)%nat with 0%nat by lia.
  - intros Hspan i j x y Hij Hx Hy.
    assert (Hj : (j < length (t ++ [(p + 12)%Z]))%nat)
      by (eapply lookup_lt_Some; exact Hy).
    rewrite length_app in Hj. cbn in Hj.
    assert (Hin : forall k z, (k < length t)%nat ->
              (t ++ [p + 12]) !! k = Some z ->
              (p :: t) !! S k = Some z /\ z <= t !!! pred (length t)).
    { intros k z Hk Hz. rewrite lookup_app_l in Hz by lia.
      split; [exact Hz|].
      apply (Hasc (S k) (S (pred (length t)))); [lia|exact Hz|exact Hlast]. }
    destruct (decide (j < length t)%nat) as [Hjt|Hjt].
    + destruct (Hin i x ltac:(lia) Hx) as [Hx' _].
      destruct (Hin j y Hjt Hy) as [Hy' _].
      apply (Hasc (S i) (S j)); [lia|exact Hx'|exact Hy'].
    + assert (j = length t) as -> by lia.
      rewrite lookup_app_r in Hy by lia.
      replace (length t - length t)%nat with 0%nat in Hy by lia.
      cbn in Hy. injection Hy as <-.
      destruct (decide (i < length t)%nat) as [Hit|Hit].
      * destruct (Hin i x Hit Hx) as [_ Hle]. lia.
      * assert (i = length t) as -> by lia.
        rewrite lookup_app_r in Hx by lia.
        replace (length t - length t)%nat with 0%nat in Hx by lia.
        cbn in Hx. injection Hx as <-. lia.
Qed.

(** ** The further properties on concrete chords *)

Lemma ascending_single (p : Z) : ascending [p].
Proof.
  intros [|i] [|j] x y _ Hx Hy; try discriminate.
  cbn in Hx, Hy. injection Hx as <-. injection Hy as <-. lia.
Qed.

Lemma ascending_cons (p q : Z) (t : list Z) :
  p <= q -> ascending (q :: t) -> ascending (p :: q :: t).
Proof.
  intros Hpq Hasc [|i] [|j] x y Hij Hx Hy; cbn in Hx, Hy.
  - injection Hx as <-. injection Hy as <-. lia.
  - injection Hx as <-.
    pose proof (Hasc 0%nat j q y ltac:(lia) eq_refl Hy). lia.
  - lia.
  - apply (Hasc i j x y); [lia|exact Hx|exact Hy].
Qed.

Lemma c_major_ascending : ascending (pitches c_major_triad).
Proof.
  cbn. apply ascending_cons; [lia|]. apply ascending_cons; [lia|].
  apply ascending_single.
Qed.

Lemma c_major_ok : pitches_ok c_major_triad.
Proof. unfold pitches_ok, pitch_ok. cbn. repeat constructor; lia. Qed.

Lemma c_major_in_range : Forall Int.in_range (pitches c_major_triad).
Proof.
  cbn. repeat (constructor; [apply in_rangeb_spec; reflexivity|]).
  constructor.
Qed.

(** C3 fails as stated: the first dot takes a duration of 5 to 7, and twice
    7 is not three times 5. *)
Lemma dot_three_branches_counterexample :
  ~ (forall (one_twenty_eighth_note dotted_sixty_fourth_note : Z) (c : Chord),
       let dot := dot one_twenty_eighth_note dotted_sixty_fourth_note in
       let d := duration c in
       let c' := after dot c in
       (dotted c = false -> double_dotted c = false ->
          (d = one_twenty_eighth_note -> dot c = (false, c)) /\
          (d <> one_twenty_eighth_note ->
             result dot c = true /\ dotted c' = true /\
             2 * duration c' = 3 * d))
       /\
       (dotted c = true -> double_dotted c = false ->
          (d = dotted_sixty_fourth_note -> dot c = (false, c)) /\
          (d <> dotted_sixty_fourth_note ->
             result dot c = true /\ double_dotted c' = true /\
             6 * duration c' = 7 * d))
       /\
       (dotted c = true -> double_dotted c = true -> dot c = (false, c))).
Proof.
  intros H.
  destruct (H 1 3 (plain_chord [60; 64; 67] 5)) as [Hfirst _].
  destruct (Hfirst eq_refl eq_refl) as [_ Hdot].
  destruct (Hdot ltac:(cbn; lia)) as (_ & _ & Hd).
  vm_compute in Hd. discriminate.
Qed.

(** A quarter note of 32 ticks takes its first dot and lasts 48; a dotted
    quarter note of 48 ticks takes its second dot and lasts 56. *)
Lemma dot_three_branches_witness :
  let c := plain_chord [60; 64; 67] 32 in
  let c1 := set_duration 48 (set_dotted true c) in
  (dotted c = false /\ double_dotted c = false /\ duration c <> 1 /\
   Int.in_range (Z.quot (3 * duration c) 2) /\
   dot 1 3 c = (true, c1)) /\
  (dotted c1 = true /\ double_dotted c1 = false /\ duration c1 <> 3 /\
   Int.in_range (duration c1) /\ Int.in_range (7 * Z.quot (duration c1) 6) /\
   dot 1 3 c1 = (true, set_duration 56 (set_double_dotted true c1))).
Proof.
  cbv zeta. split.
  - assert (Hne : duration (plain_chord [60; 64; 67] 32) <> 1) by (cbn; lia).
    assert (Hfit : Int.in_range
                     (Z.quot (3 * duration (plain_chord [60; 64; 67] 32)) 2))
      by (apply in_rangeb_spec; reflexivity).
    do 2 (split; [reflexivity|]). split; [exact Hne|]. split; [exact Hfit|].
    exact (proj1 (proj2 (proj1 (dot_three_branches 1 3
                                  (plain_chord [60; 64; 67] 32))
                           eq_refl eq_refl) Hne Hfit)).
  - assert (Hne : duration (set_duration 48
                     (set_dotted true (plain_chord [60; 64; 67] 32))) <> 3)
      by (cbn; lia).
    assert (Hr : Int.in_range (duration (set_duration 48
                     (set_dotted true (plain_chord [60; 64; 67] 32)))))
      by (apply in_rangeb_spec; reflexivity).
    assert (H7 : Int.in_range (7 * Z.quot (duration (set_duration 48
                     (set_dotted true (plain_chord [60; 64; 67] 32)))) 6))
      by (apply in_rangeb_spec; reflexivity).
    do 2 (split; [reflexivity|]). split; [exact Hne|].
    split; [exact Hr|]. split; [exact H7|].
    exact (proj1 (proj2 (proj1 (proj2 (dot_three_branches 1 3
                     (set_duration 48
                        (set_dotted true (plain_chord [60; 64; 67] 32)))))
                           eq_refl eq_refl) Hne Hr H7)).
Defined.

(** A doubly dotted quarter note takes no further dot. *)
Lemma double_dot_is_final_witness :
  let c := c_major_triad in
  result (double_dot 1 2) c = true /\
  dot 1 3 (after (double_dot 1 2) c) = (false, after (double_dot 1 2) c).
Proof.
  cbv zeta. split; [reflexivity|].
  exact (proj2 (double_dot_is_final 1 2 3 (c_major_triad)
                  eq_refl)).
Defined.

(** A dotted quarter note is refused by [double_dot]. *)
Lemma double_dot_after_dot_fails_witness :
  let c := c_major_triad in
  result (dot 1 3) c = true /\
  result (double_dot 1 2) (after (dot 1 3) c) = false.
Proof.
  cbv zeta. split; [reflexivity|].
  unfold result at 1.
  now rewrite (double_dot_after_dot_fails 1 2 3
                 (c_major_triad) eq_refl).
Defined.


(** The C major triad goes up an octave and comes back. *)
Lemma add_octave_then_drop_octave_witness :
  let c := c_major_triad in
  Forall Int.in_range (pitches c) /\
  Forall (fun p => Int.in_range (p + 12)) (pitches c) /\
  0 <= pitches c !!! 0%nat /\
  result add_octave c = true /\
  drop_octave (after add_octave c) = (true, c).
Proof.
  cbv zeta.
  assert (Hroom : Forall (fun p => Int.in_range (p + 12))
                    (pitches c_major_triad))
    by (cbn; repeat (constructor; [apply in_rangeb_spec; reflexivity|]);
        constructor).
  assert (H0 : 0 <= pitches c_major_triad !!! 0%nat)
    by (cbn; lia).
  split; [exact c_major_in_range|]. split; [exact Hroom|].
  split; [exact H0|]. split; [reflexivity|].
  exact (proj1 (add_octave_then_drop_octave c_major_triad
                  c_major_in_range Hroom H0 eq_refl)).
Defined.

(** The C major triad goes down an octave and comes back. *)
Lemma drop_octave_then_add_octave_witness :
  let c := c_major_triad in
  Forall Int.in_range (pitches c) /\
  Forall (fun p => Int.in_range (p - 12)) (pitches c) /\
  pitches c !!! (length (pitches c) - 1)%nat <= 126 /\
  result drop_octave c = true /\
  add_octave (after drop_octave c) = (true, c).
Proof.
  cbv zeta.
  assert (Hroom : Forall (fun p => Int.in_range (p - 12))
                    (pitches c_major_triad))
    by (cbn; repeat (constructor; [apply in_rangeb_spec; reflexivity|]);
        constructor).
  assert (H0 : pitches c_major_triad
                 !!! (length (pitches c_major_triad) - 1)%nat
               <= 126) by (cbn; lia).
  split; [exact c_major_in_range|]. split; [exact Hroom|].
  split; [exact H0|]. split; [reflexivity|].
  exact (proj1 (drop_octave_then_add_octave c_major_triad
                  c_major_in_range Hroom H0 eq_refl)).
Defined.

(** Three inversions of the C major triad give the triad an octave up. *)
Lemma inverting_through_is_add_octave_witness :
  let c := c_major_triad in
  (2 <= length (pitches c))%nat /\
  Forall Int.in_range (pitches c) /\
  Forall (fun p => p + 12 <= 126) (pitches c) /\
  pitches (repeatedly invert 3 c) = [72; 76; 79] /\
  add_octave c = (true, repeatedly invert 3 c).
Proof.
  cbv zeta.
  assert (Hlen : (2 <= length (pitches c_major_triad))%nat)
    by (cbn; lia).
  assert (Hroom : Forall (fun p => p + 12 <= 126) (pitches c_major_triad))
    by (cbn; repeat (constructor; [lia|]); constructor).
  split; [exact Hlen|]. split; [exact c_major_in_range|].
  split; [exact Hroom|]. split; [reflexivity|].
  exact (proj1 (inverting_through_is_add_octave c_major_triad
                  Hlen c_major_in_range Hroom)).
Defined.

(** The first inversion of the C major triad has the pitch classes of E, G
    and C, in this order. *)
Lemma pitch_classes_are_kept_witness :
  let c := c_major_triad in
  pitches_ok c /\ result invert c = true /\
  map pitch_class (pitches (after invert c)) = [4; 7; 0].
Proof.
  cbv zeta. split; [exact c_major_ok|]. split; [reflexivity|].
  exact (proj1 (proj2 (pitch_classes_are_kept 1 2 3 Invert
                         c_major_triad c_major_ok)) eq_refl eq_refl).
Defined.

(** The C major triad, an octave up. *)
Lemma add_octave_on_ascending_chord_witness :
  let c := c_major_triad in
  pitches_ok c /\ ascending (pitches c) /\
  add_octave c = add_octave_by_highest c.
Proof.
  cbv zeta. split; [exact c_major_ok|]. split; [exact c_major_ascending|].
  exact (proj1 (add_octave_on_ascending_chord (c_major_triad)
                  c_major_ok c_major_ascending)).
Defined.

(** The C major triad, an octave down. *)
Lemma drop_octave_on_ascending_chord_witness :
  let c := c_major_triad in
  pitches_ok c /\ ascending (pitches c) /\
  drop_octave c = drop_octave_by_lowest c.
Proof.
  cbv zeta. split; [exact c_major_ok|]. split; [exact c_major_ascending|].
  exact (proj1 (drop_octave_on_ascending_chord (c_major_triad)
                  c_major_ok c_major_ascending)).
Defined.

(** The C major triad spans a fifth, and its first inversion is
    ascending. *)
Lemma invert_keeps_order_within_an_octave_witness :
  let c := c_major_triad in
  pitches_ok c /\ ascending (pitches c) /\ result invert c = true /\
  ascending (pitches (after invert c)).
Proof.
  cbv zeta. split; [exact c_major_ok|]. split; [exact c_major_ascending|].
  split; [reflexivity|].
  apply (invert_keeps_order_within_an_octave (c_major_triad)
           c_major_ok c_major_ascending eq_refl).
  cbn. lia.
Defined.

(** A dotted chord keeps its dot through an octave shift. *)
Lemma flags_are_only_ever_set_witness :
  let c := Chord_init [60; 64; 67] 48 0 1 0 0 0 0 0 0 0 in
  dotted c = true /\ dotted (after (run 1 2 3 AddOctave) c) = true.
Proof.
  cbv zeta. split; [reflexivity|].
  destruct (flags_are_only_ever_set 1 2 3 AddOctave
              (Chord_init [60; 64; 67] 48 0 1 0 0 0 0 0 0 0))
    as (_ & _ & Hdotted & _).
  exact (Hdotted eq_refl).
Defined.

(** A dot leaves the C major triad its pitches. *)
Lemma pitch_and_duration_operations_are_separate_witness :
  on_pitches Dot = false /\
  pitches (after (run 1 2 3 Dot) c_major_triad) = pitches c_major_triad.
Proof.
  split; [reflexivity|].
  exact (proj1 (pitch_and_duration_operations_are_separate 1 2 3 Dot
                  c_major_triad) eq_refl).
Defined.

(** A quarter note of 32 ticks, doubly dotted, lasts 56. *)
Lemma double_dot_scales_by_seven_quarters_witness :
  result (double_dot 1 2) c_major_triad = true /\
  Int.in_range (duration c_major_triad) /\
  Int.in_range (7 * Z.quot (duration c_major_triad) 4) /\
  duration (after (double_dot 1 2) c_major_triad) = 56.
Proof.
  assert (Hd : Int.in_range (duration c_major_triad))
    by (apply in_rangeb_spec; reflexivity).
  assert (H7 : Int.in_range (7 * Z.quot (duration c_major_triad) 4))
    by (apply in_rangeb_spec; reflexivity).
  split; [reflexivity|]. split; [exact Hd|]. split; [exact H7|].
  destruct (proj2 (double_dot_scales_by_seven_quarters 1 2 c_major_triad)
              eq_refl Hd H7) as (_ & _ & Hdur & _).
  exact Hdur.
Defined.

(** A dotted quarter note of 48 ticks takes its second dot and lasts 56. *)
Lemma second_dot_scales_by_seven_sixths_witness :
  let c := Chord_init [60; 64; 67] 48 0 1 0 0 0 0 0 0 0 in
  dotted c = true /\ double_dotted c = false /\ duration c <> 3 /\
  Int.in_range (duration c) /\ Int.in_range (7 * Z.quot (duration c) 6) /\
  duration (after (dot 1 3) c) = 56.
Proof.
  cbv zeta.
  assert (Hne : duration (Chord_init [60; 64; 67] 48 0 1 0 0 0 0 0 0 0) <> 3)
    by (cbn; lia).
  assert (Hd : Int.in_range
                 (duration (Chord_init [60; 64; 67] 48 0 1 0 0 0 0 0 0 0)))
    by (apply in_rangeb_spec; reflexivity).
  assert (H7 : Int.in_range
                 (7 * Z.quot
                        (duration (Chord_init [60; 64; 67] 48 0 1 0 0 0 0 0 0 0))
                        6))
    by (apply in_rangeb_spec; reflexivity).
  do 2 (split; [reflexivity|]). split; [exact Hne|].
  split; [exact Hd|]. split; [exact H7|].
  destruct (second_dot_scales_by_seven_sixths 1 3
              (Chord_init [60; 64; 67] 48 0 1 0 0 0 0 0 0 0)
              eq_refl eq_refl Hne Hd H7) as (_ & _ & Hdur & _).
  exact Hdur.
Defined.

(** A duration of 2 ticks put in a triplet is 0. *)
Lemma put_in_triplet_shortens_witness :
  let c := plain_chord [60; 64; 67] 2 in
  triplet c = false /\ Int.in_range (duration c) /\
  duration (after put_in_triplet c) = 0.
Proof.
  cbv zeta.
  assert (Hd : Int.in_range (duration (plain_chord [60; 64; 67] 2)))
    by (apply in_rangeb_spec; reflexivity).
  split; [reflexivity|]. split; [exact Hd|].
  destruct (put_in_triplet_shortens (plain_chord [60; 64; 67] 2) eq_refl Hd)
    as (_ & _ & Hzero & _).
  apply Hzero. cbn. lia.
Defined.

(** Dotting and inverting the C major triad, in either order. *)
Lemma duration_and_pitch_operations_commute_witness :
  on_pitches Dot = false /\ on_pitches Invert = true /\
  after (run 1 2 3 Invert) (after (run 1 2 3 Dot) c_major_triad)
    = after (run 1 2 3 Dot) (after (run 1 2 3 Invert) c_major_triad).
Proof.
  do 2 (split; [reflexivity|]).
  exact (proj2 (proj2 (duration_and_pitch_operations_commute 1 2 3
                         Dot Invert c_major_triad eq_refl eq_refl))).
Defined.

(** The first inversion of the C major triad is in range. *)
Lemma other_operations_keep_range_witness :
  Invert <> AddOctave /\ Invert <> DropOctave /\
  pitches_ok c_major_triad /\
  pitches_ok (after (run 1 2 3 Invert) c_major_triad).
Proof.
  assert (Ha : Invert <> AddOctave) by discriminate.
  assert (Hd : Invert <> DropOctave) by discriminate.
  split; [exact Ha|]. split; [exact Hd|]. split; [exact c_major_ok|].
  exact (other_operations_keep_range 1 2 3 Invert c_major_triad
           Ha Hd c_major_ok).
Defined.

(** Whatever the duration table, some undotted chord is dotted to a
    duration that is not 1.5 times the original. *)
Lemma first_dot_inexact_in_every_table
    (one_twenty_eighth_note dotted_sixty_fourth_note : Z) :
  exists d : Z,
    d <> one_twenty_eighth_note /\
    result (dot one_twenty_eighth_note dotted_sixty_fourth_note)
      (plain_chord [60; 64; 67] d) = true /\
    2 * duration (after (dot one_twenty_eighth_note dotted_sixty_fourth_note)
                    (plain_chord [60; 64; 67] d))
      <> 3 * d.
Proof.
  assert (Hone : forall d, d <> one_twenty_eighth_note ->
            dot one_twenty_eighth_note dotted_sixty_fourth_note
              (plain_chord [60; 64; 67] d)
            = (true, set_duration (Int.mul_1_5 d)
                       (set_dotted true (plain_chord [60; 64; 67] d)))).
  { intros d Hd.
    now rewrite (dot_when_not_dotted _ _ (plain_chord [60; 64; 67] d)). }
  destruct (Z.eq_dec one_twenty_eighth_note 5) as [->|Hne].
  - exists 7. unfold result, after. rewrite Hone by lia.
    split; [lia|]. split; [reflexivity|]. vm_compute. discriminate.
  - exists 5. unfold result, after. rewrite Hone by lia.
    split; [lia|]. split; [reflexivity|]. vm_compute. discriminate.
Qed.
